(** * Questionnaire analysis (hw5.py): a shallow embedding and its properties

    The program is one Python class, [QuestionnaireAnalysis], holding a
    pandas table read from a JSON file and offering four operations on it.
    The development follows the source method by method.

    Conventions of the embedding
    - a numeric cell of the loaded table is [option Q]: [None] is NaN (the
      missing value), and a present value is finite, the rational that the
      binary64 number is;
    - a number that the program computes is a [float64]: a rational or an
      infinity, the result of every operation being rounded to binary64 (to
      nearest, ties to even, overflow to infinity);
    - an email cell is a character string;
    - a raised Python exception is the [Raises] outcome of a computation;
    - the row labels of the loaded table are 0, 1, ..., n-1, as pandas gives
      them to a JSON array of records;
    - every table has the columns q1, ..., q5, adjacent and in this order,
      so that the label slice [.loc[:, "q1":"q5"]] is the five grade
      columns;
    - the library is pandas 2 with numpy. *)

From Stdlib Require Import ZArith QArith Qround Qreduction Lqa String Ascii.
From stdpp Require Import base option list gmap strings.

Local Open Scope Z_scope.

(** ** Exceptions and outcomes *)

(** The exception classes that the library calls of hw5.py raise. *)
Inductive exn : Type :=
  | IndexError
  | ValueError
  | TypeError
  | OverflowError
  | KeyError (label : string)
  | AttributeError
  | FileNotFoundError
  | PermissionError.


Inductive result (A : Type) : Type :=
  | Returns (a : A)
  | Raises (e : exn).
Arguments Returns {A} a.
Arguments Raises {A} e.

Definition bind_result {A B} (k : A → result B) (m : result A) : result B :=
  match m with
  | Returns a => k a
  | Raises e => Raises e
  end.

#[global] Instance result_bind : MBind result := @bind_result.
#[global] Instance result_ret : MRet result := @Returns.

(** A Python [for] loop that appends [f x] to a list, stopping at the first
    exception. *)
Fixpoint for_each {A B} (f : A → result B) (l : list A) : result (list B) :=
  match l with
  | [] => Returns []
  | x :: l' =>
      y ← f x;
      ys ← for_each f l';
      Returns (y :: ys)
  end.

(** ** Python strings *)

Definition chr_at : ascii := "@"%char.
Definition chr_dot : ascii := "."%char.

(** [len(s)] *)
Definition str_len (s : string) : Z := Z.of_nat (String.length s).

(** [s.find(c)]: the lowest index of [c], or -1. *)
Fixpoint str_find (c : ascii) (s : string) : Z :=
  match s with
  | EmptyString => -1
  | String a s' =>
      if Ascii.eqb a c then 0
      else let r := str_find c s' in
           if r <? 0 then -1 else r + 1
  end.

(** [s.rfind(c)]: the highest index of [c], or -1. *)
Fixpoint str_rfind (c : ascii) (s : string) : Z :=
  match s with
  | EmptyString => -1
  | String a s' =>
      let r := str_rfind c s' in
      if 0 <=? r then r + 1
      else if Ascii.eqb a c then 0 else -1
  end.

(** [s[i]]: a negative index counts from the end; an index outside
    [-len(s), len(s))] raises IndexError. *)
Definition str_getitem (s : string) (i : Z) : result ascii :=
  let n := str_len s in
  let j := if i <? 0 then i + n else i in
  if (0 <=? j) && (j <? n) then
    match String.get (Z.to_nat j) s with
    | Some a => Returns a
    | None => Raises IndexError
    end
  else Raises IndexError.

(** ** Numeric cells, numpy and pandas helpers *)

(** A float64 cell of the loaded table: [None] is NaN. *)
Abbreviation cell := (option Q).

(** A binary64 number other than NaN. *)
Inductive float64 : Type :=
  | Finite (q : Q)
  | Infinite (negative : bool).

(** A float64 cell that the program computes: [None] is NaN. *)
Abbreviation fcell := (option float64).

Definition isna {N} (c : option N) : bool :=
  match c with
  | None => true
  | Some _ => false
  end.

(** [2 ^ k], and 1 for a negative [k]. *)
Definition pow2 (k : Z) : Z := 2 ^ Z.max k 0.

(** The [e] with [2 ^ e <= n / d < 2 ^ (e + 1)], for positive [n], [d]. *)
Definition Qlog2 (n d : Z) : Z :=
  let e0 := Z.log2 n - Z.log2 d in
  if n * pow2 (- e0) <? d * pow2 e0 then e0 - 1 else e0.

(** The integer nearest to [n / d], the even one of two that are equally
    near, for [n >= 0] and positive [d]. *)
Definition rint (n d : Z) : Z :=
  let f := n / d in
  let r := n mod d in
  match 2 * r ?= d with
  | Lt => f
  | Gt => f + 1
  | Eq => if Z.even f then f else f + 1
  end.

(** Rounding of a rational to binary64: 53 significant bits, the least
    exponent of a unit in the last place -1074, overflow to infinity from
    [2 ^ 1024 - 2 ^ 970] on. *)
Definition round64 (x : Q) : float64 :=
  let n := Qnum x in
  let d := Zpos (Qden x) in
  if n =? 0 then Finite 0
  else
    let a := Z.abs n in
    let e := Qlog2 a d in
    let p := Z.max e (-1022) - 52 in
    let m := rint (a * pow2 (- p)) (d * pow2 p) in
    if 2 ^ 1024 <=? m * pow2 p then Infinite (n <? 0)
    else Finite (Qred (Qmake (Z.sgn n * m * pow2 p) (Z.to_pos (pow2 (- p))))).

(** Binary64 addition of a finite number to a running sum, and division of
    a sum by a positive count. *)
Definition add64 (acc : float64) (x : Q) : float64 :=
  match acc with
  | Finite a => round64 (a + x)
  | Infinite negative => Infinite negative
  end.

Definition div64 (acc : float64) (n : nat) : float64 :=
  match acc with
  | Finite a => round64 (a / inject_Z (Z.of_nat n))
  | Infinite negative => Infinite negative
  end.

(** Number of [True] entries, as [.sum()] of a boolean vector gives it. *)
Definition count_true {A} (f : A → bool) (l : list A) : nat :=
  sum_list ((λ x, Nat.b2n (f x)) <$> l).

(** [.mean()] with pandas' default [skipna=True], as [nanops.nanmean]
    computes it: NaN when no value is present; otherwise the values, with 0
    in the place of NaN, are added from left to right in binary64 and the
    sum is divided by the number of present values. *)
Definition nanmean (xs : list cell) : fcell :=
  match omap id xs with
  | [] => None
  | v :: vs =>
      let the_sum := foldl add64 (Finite 0) (default 0%Q <$> xs) in
      Some (div64 the_sum (length (v :: vs)))
  end.

(** [np.floor] on a float: NaN stays NaN, an infinity stays as it is. *)
Definition np_floor (c : fcell) : fcell :=
  match c with
  | Some (Finite x) => Some (Finite (inject_Z (Qfloor x)))
  | _ => c
  end.

(** [np.linspace(start, stop, num)] *)
Definition np_linspace (start stop : Q) (num : nat) : list Q :=
  (λ i : nat,
     Qred (start + inject_Z (Z.of_nat i)
                   * ((stop - start) / inject_Z (Z.of_nat (num - 1)))))
    <$> seq 0 num.

(** Membership of a value in the bin [lo, hi) or, for the last bin,
    [lo, hi]; NaN is in no bin. *)
Definition in_bin (last : bool) (lo hi : Q) (c : cell) : bool :=
  match c with
  | None => false
  | Some x =>
      Qle_bool lo x && (if last then Qle_bool x hi else negb (Qle_bool hi x))
  end.

(** [np.histogram(a, bins=edges)] with explicit bin edges: one count per
    pair of consecutive edges, every bin half-open but the last. *)
Fixpoint np_histogram (a : list cell) (edges : list Q) : list nat :=
  match edges with
  | lo :: tl =>
      match tl with
      | hi :: rest =>
          count_true (in_bin (bool_decide (rest = [])) lo hi) a
            :: np_histogram a tl
      | [] => []
      end
  | [] => []
  end.

(** [np.broadcast_to(v, (r, c))] for a vector [v]: its length has to be
    [c], or 1 (the single element is stretched); anything else raises
    ValueError. *)
Definition np_broadcast_to {A} (v : list A) (shape : nat * nat)
  : result (list (list A)) :=
  let '(r, c) := shape in
  if bool_decide (length v = c) then Returns (replicate r v)
  else match v with
       | [x] => Returns (replicate r (replicate c x))
       | _ => Raises ValueError
       end.

(** [np.transpose] of a matrix with [c] columns. *)
Definition np_transpose {A} (m : list (list A)) (c : nat) : list (list A) :=
  (λ j, omap (λ line : list A, line !! j) m) <$> seq 0 c.

(** A nullable UInt8 value: [None] is [pd.NA]. *)
Abbreviation UInt8 := (option Z).

(** The cast of one float to uint8 that pandas accepts: the value has to be
    equal to its uint8 image. *)
Definition safe_cast_uint8 (x : float64) : result Z :=
  match x with
  | Finite q =>
      let z := Qfloor q in
      if Qeq_bool q (inject_Z z) && (0 <=? z) && (z <=? 255) then Returns z
      else Raises TypeError
  | Infinite _ => Raises TypeError
  end.

Definition is_pinf (c : fcell) : bool :=
  match c with
  | Some (Infinite false) => true
  | _ => false
  end.

Definition is_ninf (c : fcell) : bool :=
  match c with
  | Some (Infinite true) => true
  | _ => false
  end.

(** [int(values[np.nanargmax(values)])] on floats that are not all NaN: the
    first of the greatest values, NaN counting as -infinity, is converted
    to a Python int, which raises OverflowError for an infinity and
    ValueError for NaN. *)
Definition int_of_nanmax (s : list fcell) : result unit :=
  if existsb is_pinf s then Raises OverflowError
  else if forallb (λ c, isna c || is_ninf c) s then
    match s with
    | None :: _ => Raises ValueError
    | _ => Raises OverflowError
    end
  else Returns ().

(** The cast of one value of a Series: NaN becomes [pd.NA]. *)
Definition cast_uint8 (c : fcell) : result UInt8 :=
  match c with
  | None => Returns None
  | Some x => z ← safe_cast_uint8 x; Returns (Some z)
  end.

(** [.astype('UInt8')] on a Series of floats that are whole numbers,
    infinities or NaN. Unless every value is NaN, pandas first converts the
    greatest value to a Python int; then NaN becomes [pd.NA] and every
    other value is cast, one value that does not fit making the whole
    conversion raise TypeError. *)
Definition astype_UInt8 (s : list fcell) : result (list UInt8) :=
  _ ← (if forallb isna s then Returns () else int_of_nanmax s);
  for_each cast_uint8 s.

(** [frame[mask]] and [arr[mask]]: the entries whose mask is [True]; a mask
    of another length raises. *)
Fixpoint select {A} (l : list A) (mask : list bool) : list A :=
  match l, mask with
  | x :: l', b :: mask' =>
      if b then x :: select l' mask' else select l' mask'
  | _, _ => []
  end.

Definition getitem_mask {A} (e : exn) (l : list A) (mask : list bool)
  : result (list A) :=
  if bool_decide (length mask = length l) then Returns (select l mask)
  else Raises e.

(** [s[mask] = v] on a Series. *)
Definition setitem_mask {A} (s : list A) (mask : list bool) (v : A) : list A :=
  zip_with (λ x (b : bool), if b then v else x) s mask.

(** [.fillna] of one cell with the cell of the value frame at the same row
    label and column. *)
Definition fillna_cell (c : cell) (value : fcell) : fcell :=
  match c with
  | Some x => Some (Finite x)
  | None => value
  end.

(** The cell of a frame of floats at row label [i], column number [j]; NaN
    when the frame has no such row, as label alignment gives it. *)
Definition frame_at (m : list (list fcell)) (i j : nat) : fcell :=
  default None (line ← m !! i; line !! j).

(** ** The table *)

(** One subject, with numbers of the type [N]. [rest] holds the cells of
    the columns that no operation reads, by column name. *)
Record row_of (N : Type) : Type := Row {
  rest : list (string * string);
  age : option N;
  email : string;
  q1 : option N;
  q2 : option N;
  q3 : option N;
  q4 : option N;
  q5 : option N
}.
Arguments Row {N} _ _ _ _ _ _ _ _.
Arguments rest {N} _.
Arguments age {N} _.
Arguments email {N} _.
Arguments q1 {N} _.
Arguments q2 {N} _.
Arguments q3 {N} _.
Arguments q4 {N} _.
Arguments q5 {N} _.

(** A row of the loaded table, and the loaded table. *)
Abbreviation row := (row_of Q).
Abbreviation table := (list row).

(** A row of a table that holds computed numbers. *)
Abbreviation frow := (row_of float64).

(** [.loc[:, "q1":"q5"]], one row of it. *)
Definition grades {N} (r : row_of N) : list (option N) :=
  [q1 r; q2 r; q3 r; q4 r; q5 r].

(** [.loc[:, "q1":"q5"].mean(1)] *)
Definition row_mean (r : row) : fcell := nanmean (grades r).

(** [.loc[:, "q1":"q5"].isna().sum(1)] *)
Definition count_nan {N} (r : row_of N) : nat := count_true isna (grades r).

(** ** show_age_distrib *)

(** The counts and the bin edges that the method returns; the drawing of
    the figure has no part in them. *)
Definition show_age_distrib (data : table) : list nat * list Q :=
  let ages := age <$> data in
  let bins := np_linspace 0 100 11 in
  let hist := np_histogram ages bins in
  (hist, bins).

(** A row whose age is present and within the range of the bins. *)
Definition age_in_range (r : row) : bool :=
  in_bin true 0 100 (age r).

(** Consecutive bin edges in non-decreasing order. *)
Fixpoint ascending (lo : Q) (edges : list Q) : Prop :=
  match edges with
  | [] => True
  | hi :: rest => (lo <= hi)%Q ∧ ascending hi rest
  end.

(** ** remove_rows_without_mail *)

Definition series_and (a b : list bool) : list bool := zip_with andb a b.

(** The method on a table whose email column holds strings. The [.str]
    accessor, which refuses the column of a loaded table without rows, is
    part of the method on the object, below. *)
Definition remove_rows_without_mail (data : table) : result table :=
  let emails := email <$> data in
  let emails_length := str_len <$> emails in
  let find_first_dot := str_find chr_dot <$> emails in
  let find_last_dot := str_rfind chr_dot <$> emails in
  let find_first_at := str_find chr_at <$> emails in
  let find_last_at := str_rfind chr_at <$> emails in
  let cond1 :=
    series_and
      (series_and (zip_with Z.eqb find_last_at find_first_at)
                  ((λ i, 0 <? i) <$> find_first_at))
      (zip_with Z.ltb find_first_at emails_length) in
  let cond2 :=
    series_and ((λ i, 0 <? i) <$> find_first_dot)
               (zip_with Z.ltb find_last_dot emails_length) in
  cond3 ← for_each
            (λ p : string * Z,
               c ← str_getitem p.1 (p.2 + 1);
               Returns (negb (Ascii.eqb c chr_dot)))
            (zip emails find_first_at);
  let valid_email := series_and (series_and cond1 cond2) cond3 in
  df ← getitem_mask ValueError data valid_email;
  Returns df.

(** ** fill_na_with_mean *)

(** [data.fillna(value = all_means_df)], one row of it: the value frame has
    the columns q1..q5 only, so no other column is filled. *)
Definition fillna_row (value : list (list fcell)) (i : nat) (r : row)
  : frow :=
  {| rest := rest r;
     age := Finite <$> age r;
     email := email r;
     q1 := fillna_cell (q1 r) (frame_at value i 0);
     q2 := fillna_cell (q2 r) (frame_at value i 1);
     q3 := fillna_cell (q3 r) (frame_at value i 2);
     q4 := fillna_cell (q4 r) (frame_at value i 3);
     q5 := fillna_cell (q5 r) (frame_at value i 4) |}.

Definition fill_na_with_mean (data : table)
  : result (list frow * list nat) :=
  let all_means_vector := row_mean <$> data in
  broadcast ← np_broadcast_to all_means_vector (5, 100)%nat;
  let all_means_matrix := np_transpose broadcast 100 in
  let all_means_df := all_means_matrix in
  let df := imap (fillna_row all_means_df) data in
  let arr_bool := (λ r, bool_decide (0 < count_nan r)%nat) <$> data in
  arr ← getitem_mask IndexError (seq 0 (length data)) arr_bool;
  Returns (df, arr).

(** ** score_subjects *)

Definition score_subjects (data : table) (maximal_nans_per_sub : Z)
  : result (list (row * UInt8)) :=
  let sum_nan := count_nan <$> data in
  let mask_nan :=
    (λ k : nat, maximal_nans_per_sub <? Z.of_nat k) <$> sum_nan in
  let score := row_mean <$> data in
  score ← astype_UInt8 (np_floor <$> score);
  let score := setitem_mask score mask_nan None in
  let new_df := data in
  Returns (zip new_df score).

(** ** Frames, objects and the heap *)

(** The columns that the operations look up by name. *)
Inductive column : Type := Age | Email.

#[global] Instance column_eq_dec : EqDecision column.
Proof. solve_decision. Defined.

(** The label that a failed lookup of the column reports. *)
Definition label (c : column) : string :=
  match c with
  | Age => "age"
  | Email => "email"
  end.

(** A pandas DataFrame: which of the columns 'age' and 'email' it has, and
    the rows. The fields of a row that belong to an absent column are never
    read. The grade columns are part of every frame. *)
Record DataFrame : Type := {
  columns : list column;
  rows : table
}.

(** [df[label]]: the lookup of a column by its name raises KeyError when
    the frame does not have it. *)
Definition getitem (df : DataFrame) (c : column) : result table :=
  if bool_decide (c ∈ columns df) then Returns (rows df)
  else Raises (KeyError (label c)).

Abbreviation loc := nat.

Inductive obj : Type :=
  | Frame (df : DataFrame)
  | FilledFrame (cols : list column) (body : list frow)
  | Series (s : list UInt8)
  | ScoredFrame (cols : list column) (body : list (row * UInt8)).

Abbreviation heap := (gmap loc obj).

(** The objects that are tables. *)
Definition is_table (o : obj) : Prop :=
  match o with
  | Frame _ | FilledFrame _ _ | ScoredFrame _ _ => True
  | Series _ => False
  end.

(** Computations on the heap; an exception leaves the heap as it is at the
    point of the raise. *)
Definition M (A : Type) : Type := heap → result A * heap.

Definition M_ret {A} (a : A) : M A := λ h, (Returns a, h).

Definition M_bind {A B} (k : A → M B) (m : M A) : M B :=
  λ h, match m h with
       | (Returns a, h') => k a h'
       | (Raises e, h') => (Raises e, h')
       end.

#[global] Instance M_mret : MRet M := @M_ret.
#[global] Instance M_mbind : MBind M := @M_bind.

Definition lift {A} (r : result A) : M A := λ h, (r, h).

(** A new object, at a location that is not in use. *)
Definition new (o : obj) : M loc :=
  λ h, let l := fresh (dom h) in (Returns l, <[l:=o]> h).

Definition load (l : loc) : M obj :=
  λ h, match h !! l with
       | Some o => (Returns o, h)
       | None => (Raises AttributeError, h)
       end.

(** In-place update of the object at [l]. *)
Definition store (l : loc) (o : obj) : M unit :=
  λ h, (Returns (), <[l:=o]> h).

Definition load_frame (l : loc) : M DataFrame :=
  o ← load l;
  match o with
  | Frame df => mret df
  | _ => lift (Raises AttributeError)
  end.

Definition load_series (l : loc) : M (list UInt8) :=
  o ← load l;
  match o with
  | Series s => mret s
  | _ => lift (Raises AttributeError)
  end.

(** ** The class *)

Inductive file : Type :=
  | NoFile
  | NoAccess
  | Content (text : string).

(** [Union[pathlib.Path, str]] *)
Inductive fname : Type :=
  | AsStr (s : string)
  | AsPath (p : string).

(** [pathlib.Path(s)]: a path is represented by its text, and the text
    given to the constructor is the text of a path already. *)
Definition pathlib_Path (s : string) : string := s.

(** The path that a file name denotes. *)
Definition path_of (name : fname) : string :=
  match name with
  | AsPath p => p
  | AsStr s => pathlib_Path s
  end.

(** [s.lower()] on the letters A..Z, and [s.endswith(suffix)]. *)
Definition chr_lower (c : ascii) : ascii :=
  let n := nat_of_ascii c in
  if (65 <=? n)%nat && (n <=? 90)%nat then ascii_of_nat (n + 32) else c.

Fixpoint str_lower (s : string) : string :=
  match s with
  | EmptyString => EmptyString
  | String c s' => String (chr_lower c) (str_lower s')
  end.

Fixpoint str_endswith (s suffix : string) : bool :=
  String.eqb s suffix
  || match s with
     | EmptyString => false
     | String _ s' => str_endswith s' suffix
     end.

(** The test of [read_json] on the name of a file that does not exist: the
    name ends with .json, or with .json and the suffix of a compression. *)
Definition json_name (path : string) : bool :=
  existsb (str_endswith (str_lower path))
    [".json"; ".json.tar"; ".json.tar.gz"; ".json.tar.bz2"; ".json.tar.xz";
     ".json.gz"; ".json.bz2"; ".json.zip"; ".json.xz"; ".json.zst"].

(** The [.str] accessor on a column of the loaded table: [read_json] gives
    an empty column a numeric dtype, on which the accessor raises. *)
Definition str_accessor (column : table) : result table :=
  match column with
  | [] => Raises AttributeError
  | _ => Returns column
  end.

(** The methods on the heap. An object that a method returns or updates in
    place has a location; the vectors in between are values. *)
Module QuestionnaireAnalysis.

Record self : Type := {
  data_fname : string;
  data : loc
}.

Section Construction.
(** The file system, and pandas' parser of tabular JSON. *)
Variable fs : string → file.
Variable parse_json : string → option DataFrame.

(** The parsing of a text, ValueError when it is not tabular JSON. *)
Definition loads (text : string) : result DataFrame :=
  match parse_json text with
  | Some df => Returns df
  | None => Raises ValueError
  end.

(** [pd.read_json(path)]: the content of a file that exists is parsed, the
    exception of [open] being raised when it cannot be read. The name of a
    file that does not exist raises FileNotFoundError when it is the name
    of a JSON file, and is otherwise itself parsed as JSON text. *)
Definition pd_read_json (path : string) : result DataFrame :=
  match fs path with
  | Content text => loads text
  | NoAccess => Raises PermissionError
  | NoFile =>
      if json_name path then Raises FileNotFoundError else loads path
  end.

Definition read_data (path : string) : M loc :=
  df ← lift (pd_read_json path);
  new (Frame df).

Definition __init__ (name : fname) : M self :=
  let path := path_of name in
  l ← read_data path;
  mret {| data_fname := path; data := l |}.
End Construction.

Definition show_age_distrib (this : self) : M (list nat * list Q) :=
  df ← load_frame (data this);
  ages ← lift (getitem df Age);
  mret (show_age_distrib ages).

Definition remove_rows_without_mail (this : self) : M loc :=
  df ← load_frame (data this);
  column ← lift (getitem df Email);
  emails ← lift (str_accessor column);
  kept ← lift (remove_rows_without_mail emails);
  selected ← new (Frame {| columns := columns df; rows := kept |});
  df' ← load_frame selected;
  new (Frame df').

Definition fill_na_with_mean (this : self) : M (loc * list nat) :=
  df ← load_frame (data this);
  filled ← lift (fill_na_with_mean (rows df));
  l ← new (FilledFrame (columns df) filled.1);
  mret (l, filled.2).

Definition score_subjects (this : self) (maximal_nans_per_sub : Z) : M loc :=
  df ← load_frame (data this);
  let block := rows df in
  let sum_nan := count_nan <$> block in
  let mask_nan :=
    (λ k : nat, maximal_nans_per_sub <? Z.of_nat k) <$> sum_nan in
  let means := row_mean <$> block in
  floored ← lift (astype_UInt8 (np_floor <$> means));
  score ← new (Series floored);
  (* score[mask_nan] = None *)
  s ← load_series score;
  _ ← store score (Series (setitem_mask s mask_nan None));
  (* new_df = self.data.copy() *)
  copied ← load_frame (data this);
  new_df ← new (Frame copied);
  (* new_df["score"] = score *)
  target ← load_frame new_df;
  column ← load_series score;
  _ ← store new_df (ScoredFrame (columns target) (zip (rows target) column));
  mret new_df.

(** A call of one of the four operations, and what it returns. *)
Inductive call : Type :=
  | ShowAgeDistrib
  | RemoveRowsWithoutMail
  | FillNaWithMean
  | ScoreSubjects (maximal_nans_per_sub : Z).

Inductive value : Type :=
  | Histogram (hist : list nat) (bins : list Q)
  | Table (l : loc)
  | TableAndIndices (l : loc) (arr : list nat).

Definition invoke (this : self) (c : call) : M value :=
  match c with
  | ShowAgeDistrib =>
      r ← show_age_distrib this; mret (Histogram r.1 r.2)
  | RemoveRowsWithoutMail =>
      l ← remove_rows_without_mail this; mret (Table l)
  | FillNaWithMean =>
      r ← fill_na_with_mean this; mret (TableAndIndices r.1 r.2)
  | ScoreSubjects m =>
      l ← score_subjects this m; mret (Table l)
  end.

(** A sequence of calls; a raised exception is caught by the caller and
    the next call goes on from the heap as the failed call left it. *)
Fixpoint invoke_all (this : self) (cs : list call) (h : heap) : heap :=
  match cs with
  | [] => h
  | c :: cs' => invoke_all this cs' (invoke this c h).2
  end.

End QuestionnaireAnalysis.

(** ** The operations row by row *)

(** The test of [remove_rows_without_mail] on one email: the three
    conditions; the third reads a character and may raise. *)
Definition cond1 (e : string) : bool :=
  (str_rfind chr_at e =? str_find chr_at e)
  && (0 <? str_find chr_at e)
  && (str_find chr_at e <? str_len e).

Definition cond2 (e : string) : bool :=
  (0 <? str_find chr_dot e) && (str_rfind chr_dot e <? str_len e).

Definition cond3 (e : string) : result bool :=
  c ← str_getitem e (str_find chr_at e + 1);
  Returns (negb (Ascii.eqb c chr_dot)).

Definition valid_email (e : string) : result bool :=
  c ← cond3 e;
  Returns (cond1 e && cond2 e && c).

Fixpoint keep_valid (data : table) : result table :=
  match data with
  | [] => Returns []
  | r :: data' =>
      b ← valid_email (email r);
      out ← keep_valid data';
      Returns (if b : bool then r :: out else out)
  end.

(** A row of the loaded table as a row of computed numbers. *)
Definition as_float64 (r : row) : frow :=
  {| rest := rest r;
     age := Finite <$> age r;
     email := email r;
     q1 := Finite <$> q1 r;
     q2 := Finite <$> q2 r;
     q3 := Finite <$> q3 r;
     q4 := Finite <$> q4 r;
     q5 := Finite <$> q5 r |}.

(** The row that [fill_na_with_mean] makes of a row whose mean is
    broadcast: every missing grade takes the mean of the present ones. *)
Definition impute (r : row) : frow :=
  {| rest := rest r;
     age := Finite <$> age r;
     email := email r;
     q1 := fillna_cell (q1 r) (row_mean r);
     q2 := fillna_cell (q2 r) (row_mean r);
     q3 := fillna_cell (q3 r) (row_mean r);
     q4 := fillna_cell (q4 r) (row_mean r);
     q5 := fillna_cell (q5 r) (row_mean r) |}.

(** The 0-based positions, from [i] on, of the rows with a missing grade. *)
Fixpoint rows_with_nan (i : nat) (data : table) : list nat :=
  match data with
  | [] => []
  | r :: data' =>
      if bool_decide (0 < count_nan r)%nat then i :: rows_with_nan (S i) data'
      else rows_with_nan (S i) data'
  end.

(** A mean whose floor the conversion to UInt8 takes: NaN, or a finite
    number with a floor of 0..255; and the UInt8 value that it becomes. *)
Definition fits_UInt8 (c : fcell) : Prop :=
  match c with
  | None => True
  | Some (Finite mu) => 0 ≤ Qfloor mu ≤ 255
  | Some (Infinite _) => False
  end.

Definition floor_UInt8 (c : fcell) : UInt8 :=
  match c with
  | Some (Finite mu) => Some (Qfloor mu)
  | _ => None
  end.

(** The score of one row, when every floored mean fits UInt8. *)
Definition score_of (maximal_nans_per_sub : Z) (r : row) : UInt8 :=
  if maximal_nans_per_sub <? Z.of_nat (count_nan r) then None
  else floor_UInt8 (row_mean r).

(** ** The rules as the specification words them *)

Definition count_char (c : ascii) (e : string) : nat :=
  count_true (Ascii.eqb c) (list_ascii_of_string e).

(** Exactly one '@', after position 0 and before the last character; at
    least one '.', the first after position 0 and the last before the final
    index; the character after the '@' is not '.'. *)
Definition spec_valid_email (e : string) : bool :=
  let final := str_len e - 1 in
  bool_decide (count_char chr_at e = 1%nat)
  && (0 <? str_find chr_at e) && (str_find chr_at e <? final)
  && bool_decide (0 < count_char chr_dot e)%nat
  && (0 <? str_find chr_dot e) && (str_rfind chr_dot e <? final)
  && negb (bool_decide
             (String.get (Z.to_nat (str_find chr_at e + 1)) e = Some chr_dot)).

(** The mean of the present values as a number of arithmetic, without
    rounding; NaN when no value is present. *)
Definition spec_mean (xs : list cell) : option Q :=
  match omap id xs with
  | [] => None
  | v :: vs =>
      Some (Qred (foldr Qplus 0%Q (v :: vs)
                  / inject_Z (Z.of_nat (length (v :: vs)))))
  end.

(** ** Sample rows *)

Definition subject (e : string) (a : cell) (g1 g2 g3 g4 g5 : cell) : row :=
  {| rest := []; age := a; email := e;
     q1 := g1; q2 := g2; q3 := g3; q4 := g4; q5 := g5 |}.

Definition grade (z : Z) : cell := Some (inject_Z z).
Definition NaN : cell := None.

(** A row whose grades are not added exactly: 1 + 2^53 is 2^53 in
    binary64, so that the sum is 4 and not 5. *)
Definition rounded_row : row :=
  subject "a.b@c.com" (grade 30)
    (grade 1) (grade (2 ^ 53)) (grade (- 2 ^ 53)) (grade 2) (grade 2).

(** A row whose grades add up to +infinity in binary64. *)
Definition overflowing_row : row :=
  subject "a.b@c.com" (grade 30)
    (grade (2 ^ 1023)) (grade (2 ^ 1023)) (grade (2 ^ 1023))
    (grade (2 ^ 1023)) (grade (2 ^ 1023)).

(** ** A sample file and object *)

Definition sample_table : table :=
  [subject "a.b@c.com" (grade 30) (grade 2) (grade 4) NaN (grade 6) (grade 8);
   subject "ab@.com" NaN (grade 3) (grade 3) (grade 3) (grade 3) NaN].

Definition sample_frame : DataFrame :=
  {| columns := [Age; Email]; rows := sample_table |}.

(** The JSON text of the records of [sample_table]. *)
Definition quoted (s : string) : string :=
  String (ascii_of_nat 34) (s +:+ String (ascii_of_nat 34) EmptyString).

Definition field (key value : string) : string :=
  quoted key +:+ ":" +:+ value.

Definition record (fields : list string) : string :=
  "{" +:+ String.concat "," fields +:+ "}".

Definition sample_text : string :=
  "[" +:+ record [field "age" "30"; field "email" (quoted "a.b@c.com");
                  field "q1" "2"; field "q2" "4"; field "q3" "null";
                  field "q4" "6"; field "q5" "8"]
  +:+ "," +:+ record [field "age" "null"; field "email" (quoted "ab@.com");
                      field "q1" "3"; field "q2" "3"; field "q3" "3";
                      field "q4" "3"; field "q5" "null"]
  +:+ "]".

(** A file system with three files, and a parser that knows the text of
    the first one. *)
Definition sample_fs (path : string) : file :=
  if String.eqb path "data.json" then Content sample_text
  else if String.eqb path "locked.json" then NoAccess
  else if String.eqb path "broken.json" then Content "[{"
  else NoFile.

Definition sample_parse (text : string) : option DataFrame :=
  if String.eqb text sample_text then Some sample_frame else None.

Definition sample_self : QuestionnaireAnalysis.self :=
  {| QuestionnaireAnalysis.data_fname := "data.json";
     QuestionnaireAnalysis.data := fresh (dom (∅ : heap)) |}.

Definition sample_heap : heap :=
  <[fresh (dom (∅ : heap)) := Frame sample_frame]> ∅.


(** ** Closed forms for the further properties *)

(** The character that the third condition reads, when the email has one
    at that position. *)
Definition char_after_at (e : string) : option ascii :=
  String.get (Z.to_nat (str_find chr_at e + 1)) e.

(** The test on one email without the two comparisons with the length. *)
Definition passes (e : string) : bool :=
  (str_rfind chr_at e =? str_find chr_at e)
  && (0 <? str_find chr_at e)
  && (0 <? str_find chr_dot e)
  && negb (bool_decide (char_after_at e = Some chr_dot)).

(** The number of the bucket of an age of [0, 100]: the tens of the age,
    and the last bucket for 100. *)
Definition bucket_of (x : Q) : nat := Z.to_nat (Z.min 9 (Qfloor (x / 10))).

(** A grade that is missing or a whole number of 0..[bound], and the sum of
    the present grades of a row of such grades. *)
Definition whole_grade (bound : Z) (c : cell) : bool :=
  match c with
  | None => true
  | Some q => (Qden q =? 1)%positive && (0 <=? Qnum q) && (Qnum q <=? bound)
  end.

Definition whole_sum (xs : list cell) : Z :=
  foldr (λ c acc, Qnum (default 0%Q c) + acc) 0 xs.



(** A table of one row with a missing grade, the table that imputation makes
    of it, and a table of one row without missing grade. *)
Definition one_row : table :=
  [subject "a.b@c.com" (grade 30) (grade 2) (grade 4) NaN (grade 6) (grade 8)].

Definition one_row_filled : list frow :=
  [as_float64
     (subject "a.b@c.com" (grade 30)
        (grade 2) (grade 4) (grade 5) (grade 6) (grade 8))].

Definition one_clean_row : table :=
  [subject "d.e@f.com" (grade 40)
     (grade 1) (grade 2) (grade 3) (grade 4) (grade 5)].

(** * Properties *)

(** ** Loops and vectors *)

Lemma bind_Returns {A B} (a : A) (k : A → result B) :
  (Returns a ≫= k) = k a.
Proof. reflexivity. Qed.

Lemma bind_inv {A B} (m : result A) (k : A → result B) (b : B) :
  (m ≫= k) = Returns b → ∃ a, m = Returns a ∧ k a = Returns b.
Proof. destruct m as [a|e]; [eauto | discriminate]. Qed.

Lemma for_each_length {A B} (f : A → result B) (l : list A) (ys : list B) :
  for_each f l = Returns ys → length ys = length l.
Proof.
  revert ys. induction l as [|x l IH]; intros ys H; simpl in H.
  - by inversion H.
  - apply bind_inv in H as (y & _ & H).
    apply bind_inv in H as (ys' & Hys & H).
    inversion H; subst. simpl. f_equal. by apply IH.
Qed.

Lemma for_each_fmap {A B C} (f : B → result C) (g : A → B) (l : list A) :
  for_each f (g <$> l) = for_each (f ∘ g) l.
Proof.
  induction l as [|x l IH]; [reflexivity|].
  csimpl. by rewrite IH.
Qed.

Lemma for_each_ext {A B} (f g : A → result B) (l : list A) :
  (∀ x, f x = g x) → for_each f l = for_each g l.
Proof.
  intros Hfg. induction l as [|x l IH]; [reflexivity|].
  simpl. by rewrite Hfg, IH.
Qed.

Lemma zip_with_fmap_same {A B C D} (f : B → C → D) (g : A → B) (h : A → C)
    (l : list A) :
  zip_with f (g <$> l) (h <$> l) = (λ x, f (g x) (h x)) <$> l.
Proof. induction l as [|x l IH]; [reflexivity|]. csimpl. by rewrite IH. Qed.

Lemma getitem_mask_same_length {A} e (l : list A) (mask : list bool) :
  length mask = length l → getitem_mask e l mask = Returns (select l mask).
Proof. intros H. unfold getitem_mask. by rewrite bool_decide_eq_true_2. Qed.

(** ** remove_rows_without_mail *)

Lemma keep_valid_loop (data : table) :
  (c3 ← for_each (λ r, cond3 (email r)) data;
   Returns
     (select data
        (((λ r, cond1 (email r) && cond2 (email r)) <$> data) &&* c3)))
  = keep_valid data.
Proof.
  induction data as [|r data IH]; [reflexivity|].
  csimpl. rewrite <- IH. unfold valid_email.
  destruct (cond3 (email r)) as [b|e]; [|reflexivity].
  rewrite !bind_Returns.
  destruct (for_each (λ r0, cond3 (email r0)) data) as [bs|e]; [|reflexivity].
  rewrite !bind_Returns. simpl.
  by destruct (cond1 (email r) && cond2 (email r)), b.
Qed.

Lemma remove_rows_without_mail_unfold (data : table) :
  remove_rows_without_mail data = keep_valid data.
Proof.
  rewrite <- keep_valid_loop. unfold remove_rows_without_mail, series_and.
  repeat (rewrite !zip_with_fmap_same || rewrite <- !list_fmap_compose).
  rewrite for_each_fmap.
  rewrite (for_each_ext _ (λ r, cond3 (email r))) by reflexivity.
  destruct (for_each (λ r, cond3 (email r)) data) as [c3|e] eqn:Hc3;
    [|reflexivity].
  rewrite !bind_Returns.
  apply for_each_length in Hc3.
  rewrite getitem_mask_same_length
    by (rewrite length_zip_with, length_fmap; lia).
  rewrite bind_Returns. do 3 f_equal.
Qed.

Lemma str_getitem_raises e i x : str_getitem e i = Raises x → x = IndexError.
Proof.
  unfold str_getitem.
  repeat case_match; intros Hx; inversion Hx; reflexivity.
Qed.

Lemma valid_email_raises e x : valid_email e = Raises x → x = IndexError.
Proof.
  unfold valid_email, cond3.
  destruct (str_getitem e (str_find chr_at e + 1)) as [c|y] eqn:Hc.
  - discriminate.
  - intros H. inversion H; subst. by apply str_getitem_raises in Hc.
Qed.

Lemma keep_valid_raises data x : keep_valid data = Raises x → x = IndexError.
Proof.
  induction data as [|r data IH]; [discriminate|].
  simpl. destruct (valid_email (email r)) as [b|y] eqn:Hb.
  - rewrite bind_Returns.
    destruct (keep_valid data) as [out|z]; [discriminate|].
    intros H. inversion H; subst. by apply IH.
  - intros H. inversion H; subst. by apply valid_email_raises in Hb.
Qed.

Lemma keep_valid_raises_at data r :
  r ∈ data → valid_email (email r) = Raises IndexError →
  keep_valid data = Raises IndexError.
Proof.
  intros Hin Hr.
  destruct (keep_valid data) as [out|x] eqn:Hk.
  - exfalso. revert out Hk.
    induction data as [|r' data IH]; intros out Hk.
    + by apply elem_of_nil in Hin.
    + simpl in Hk. apply elem_of_cons in Hin as [<-|Hin].
      * by rewrite Hr in Hk.
      * apply bind_inv in Hk as (b & _ & Hk).
        apply bind_inv in Hk as (out' & Hout & _). by eapply IH.
  - f_equal. by eapply keep_valid_raises.
Qed.

Lemma keep_valid_all_valid data out :
  keep_valid data = Returns out →
  Forall (λ r, valid_email (email r) = Returns true) out.
Proof.
  revert out. induction data as [|r data IH]; intros out H; simpl in H.
  - inversion H. constructor.
  - apply bind_inv in H as (b & Hb & H).
    apply bind_inv in H as (out' & Hout & H).
    inversion H; subst. destruct b; [constructor|]; auto.
Qed.

Lemma keep_valid_fixed data :
  Forall (λ r, valid_email (email r) = Returns true) data →
  keep_valid data = Returns data.
Proof.
  induction 1 as [|r data Hr _ IH]; [reflexivity|].
  simpl. by rewrite Hr, bind_Returns, IH.
Qed.

Lemma str_len_app (a b : string) : str_len (a ++ b) = str_len a + str_len b.
Proof.
  unfold str_len. induction a as [|c a IH].
  - change ("" +:+ b) with b. simpl. lia.
  - change (String c a +:+ b) with (String c (a +:+ b)). simpl in *. lia.
Qed.

Lemma str_find_app_absent c (a b : string) :
  str_find c a = -1 → 0 ≤ str_find c b →
  str_find c (a ++ b) = str_len a + str_find c b.
Proof.
  unfold str_len. induction a as [|x a IH]; intros Ha Hb.
  - change ("" +:+ b) with b. simpl. lia.
  - change (String x a +:+ b) with (String x (a +:+ b)).
    cbn [str_find String.length] in *.
    destruct (Ascii.eqb x c); [discriminate|].
    destruct (Z.ltb_spec (str_find c a) 0) as [Hlt|Hge]; [|lia].
    assert (Hneg : str_find c a = -1).
    { clear -Hlt. induction a as [|y a IH]; simpl in *; [done|].
      destruct (Ascii.eqb y c); [lia|].
      destruct (Z.ltb_spec (str_find c a) 0); lia. }
    rewrite IH by done.
    destruct (Z.ltb_spec (Z.of_nat (String.length a) + str_find c b) 0); lia.
Qed.

Lemma cond3_at_end (a : string) :
  str_find chr_at a = -1 → cond3 (a ++ "@") = Raises IndexError.
Proof.
  intros Ha. unfold cond3, str_getitem.
  rewrite str_find_app_absent by done.
  rewrite str_len_app. change (str_find chr_at "@") with 0.
  change (str_len "@") with 1.
  assert (0 ≤ str_len a) by (unfold str_len; lia).
  destruct (Z.ltb_spec (str_len a + 0 + 1) 0); [lia|].
  destruct (Z.ltb_spec (str_len a + 0 + 1) (str_len a + 1)); [lia|].
  by rewrite andb_false_r.
Qed.

(** The two comparisons with the length of the email hold for every
    string. *)
Lemma str_find_lt c e : str_find c e < str_len e.
Proof.
  unfold str_len. induction e as [|a e IH]; simpl; [lia|].
  destruct (Ascii.eqb a c); [lia|].
  destruct (Z.ltb_spec (str_find c e) 0); lia.
Qed.

Lemma str_rfind_lt c e : str_rfind c e < str_len e.
Proof.
  unfold str_len. induction e as [|a e IH]; simpl; [lia|].
  destruct (Z.leb_spec 0 (str_rfind c e)); [lia|].
  destruct (Ascii.eqb a c); lia.
Qed.

Lemma cond1_eq e :
  cond1 e = (str_rfind chr_at e =? str_find chr_at e) && (0 <? str_find chr_at e).
Proof.
  unfold cond1. pose proof (str_find_lt chr_at e).
  destruct (Z.ltb_spec (str_find chr_at e) (str_len e)); [|lia].
  by rewrite andb_true_r.
Qed.

Lemma cond2_eq e : cond2 e = (0 <? str_find chr_dot e).
Proof.
  unfold cond2. pose proof (str_rfind_lt chr_dot e).
  destruct (Z.ltb_spec (str_rfind chr_dot e) (str_len e)); [|lia].
  by rewrite andb_true_r.
Qed.

Lemma count_char_cons c a e :
  count_char c (String a e) = (Nat.b2n (Ascii.eqb c a) + count_char c e)%nat.
Proof. reflexivity. Qed.

Lemma count_char_none c e :
  count_char c e = 0%nat → str_find c e = -1 ∧ str_rfind c e = -1.
Proof.
  induction e as [|a e IH]; [done|].
  rewrite count_char_cons, Ascii.eqb_sym. simpl.
  destruct (Ascii.eqb a c); simpl; [discriminate|].
  intros H. destruct (IH H) as [-> ->]. done.
Qed.

Lemma count_char_some c e :
  (0 < count_char c e)%nat → 0 ≤ str_find c e ∧ 0 ≤ str_rfind c e.
Proof.
  induction e as [|a e IH];
    [change (count_char c "") with 0%nat; lia|].
  rewrite count_char_cons, Ascii.eqb_sym. simpl.
  destruct (Ascii.eqb a c) eqn:Ha; simpl.
  - intros _. split; [lia|]. destruct (Z.leb_spec 0 (str_rfind c e)); lia.
  - intros H. destruct (IH H) as [Hf Hr].
    destruct (Z.ltb_spec (str_find c e) 0); [lia|].
    destruct (Z.leb_spec 0 (str_rfind c e)); lia.
Qed.

Lemma count_char_one c e :
  count_char c e = 1%nat → str_rfind c e = str_find c e.
Proof.
  induction e as [|a e IH]; [done|].
  rewrite count_char_cons, Ascii.eqb_sym. simpl.
  destruct (Ascii.eqb a c) eqn:Ha; simpl.
  - intros H. destruct (count_char_none c e) as [_ ->]; [lia|]. done.
  - intros H. rewrite (IH H).
    destruct (count_char_some c e) as [Hf _]; [lia|].
    destruct (Z.ltb_spec (str_find c e) 0); [lia|].
    destruct (Z.leb_spec 0 (str_find c e)); [done|lia].
Qed.

Lemma str_getitem_in_range e i :
  0 ≤ i < str_len e →
  ∃ a, String.get (Z.to_nat i) e = Some a ∧ str_getitem e i = Returns a.
Proof.
  intros [H0 Hlen]. unfold str_getitem.
  destruct (Z.ltb_spec i 0); [lia|].
  destruct (Z.leb_spec 0 i); [|lia].
  destruct (Z.ltb_spec i (str_len e)); [|lia]. simpl.
  assert (Hn : (Z.to_nat i < String.length e)%nat) by (unfold str_len in *; lia).
  clear -Hn. revert Hn. generalize (Z.to_nat i) as n.
  induction e as [|a e IH]; intros n Hn; simpl in Hn; [lia|].
  destruct n as [|n]; simpl; [eauto|]. apply IH. lia.
Qed.

Lemma str_getitem_out_of_range e i :
  str_len e ≤ i → str_getitem e i = Raises IndexError.
Proof.
  intros Hi. unfold str_getitem.
  assert (0 ≤ str_len e) by (unfold str_len; lia).
  destruct (Z.ltb_spec i 0); [lia|].
  destruct (Z.ltb_spec i (str_len e)); [lia|].
  by rewrite andb_false_r.
Qed.

(** The test of the code on one email, in closed form: it raises when the
    string has no character at position [find('@') + 1], and otherwise
    accepts the email when its first '@' is also its last and is not at
    position 0, its first '.' is not at position 0, and the character after
    the '@' is not '.'. *)
Lemma valid_email_rule e :
  (str_len e ≤ str_find chr_at e + 1 → valid_email e = Raises IndexError)
  ∧ (str_find chr_at e + 1 < str_len e →
     ∃ a, String.get (Z.to_nat (str_find chr_at e + 1)) e = Some a
          ∧ valid_email e
            = Returns ((str_rfind chr_at e =? str_find chr_at e)
                       && (0 <? str_find chr_at e)
                       && (0 <? str_find chr_dot e)
                       && negb (Ascii.eqb a chr_dot))).
Proof.
  unfold valid_email, cond3. split; intros H.
  - by rewrite str_getitem_out_of_range.
  - assert (-1 ≤ str_find chr_at e).
    { clear. induction e as [|a e IH]; simpl; [lia|].
      destruct (Ascii.eqb a chr_at); [lia|].
      destruct (Z.ltb_spec (str_find chr_at e) 0); lia. }
    destruct (str_getitem_in_range e (str_find chr_at e + 1)) as (a & Ha & ->);
      [lia|].
    exists a. split; [exact Ha|].
    by rewrite !bind_Returns, cond1_eq, cond2_eq.
Qed.

(** Every email that the rule of the specification accepts passes the test
    of the code. *)
Lemma spec_valid_email_accepted e :
  spec_valid_email e = true → valid_email e = Returns true.
Proof.
  unfold spec_valid_email. rewrite !andb_true_iff, negb_true_iff.
  rewrite !bool_decide_eq_true, bool_decide_eq_false.
  intros [[[[[[Hone Hat0] Hat1] _] Hdot0] _] Hnext].
  apply Z.ltb_lt in Hat0, Hat1.
  unfold valid_email, cond3. rewrite cond1_eq, cond2_eq, Hdot0.
  destruct (str_getitem_in_range e (str_find chr_at e + 1)) as (a & Ha & ->);
    [lia|].
  rewrite !bind_Returns. rewrite Ha in Hnext.
  rewrite (count_char_one _ _ Hone), Z.eqb_refl.
  destruct (Z.ltb_spec 0 (str_find chr_at e)); [|lia]. simpl.
  destruct (Ascii.eqb_spec a chr_dot) as [->|]; [done|reflexivity].
Qed.

(** C6. The filter accepts "a.b@c.com" and rejects "ab@.com" (a '.' right
    after the '@'), "a@b@c.com" (two '@'), "@abc.com" ('@' at position 0)
    and "abc.com" (no '@'): each test returns without an exception, and of
    a table with these five emails only the first row is kept. *)
Theorem email_filter_examples :
  valid_email "a.b@c.com" = Returns true
  ∧ valid_email "ab@.com" = Returns false
  ∧ valid_email "a@b@c.com" = Returns false
  ∧ valid_email "@abc.com" = Returns false
  ∧ valid_email "abc.com" = Returns false
  ∧ remove_rows_without_mail
      [subject "a.b@c.com" (grade 30) NaN NaN NaN NaN NaN;
       subject "ab@.com" (grade 31) NaN NaN NaN NaN NaN;
       subject "a@b@c.com" (grade 32) NaN NaN NaN NaN NaN;
       subject "@abc.com" (grade 33) NaN NaN NaN NaN NaN;
       subject "abc.com" (grade 34) NaN NaN NaN NaN NaN]
    = Returns [subject "a.b@c.com" (grade 30) NaN NaN NaN NaN NaN].
Proof. repeat split; vm_compute; reflexivity. Qed.

(** C2 (evaluation of the code at the failing input). The email "a@b." ends
    with its only '.', so the rule of the specification rejects it, but
    [remove_rows_without_mail] keeps the row: the test
    [find_last_dot < emails_length] holds for every string. *)
Theorem remove_rows_without_mail_keeps_final_dot :
  spec_valid_email "a@b." = false
  ∧ remove_rows_without_mail [subject "a@b." (grade 30) NaN NaN NaN NaN NaN]
    = Returns [subject "a@b." (grade 30) NaN NaN NaN NaN NaN].
Proof. split; vm_compute; reflexivity. Qed.

(** C7. The filter is idempotent: when it returns a table, filtering that
    table again returns it unchanged, no row being removed. *)
Theorem remove_rows_without_mail_idempotent (data out : table) :
  remove_rows_without_mail data = Returns out →
  remove_rows_without_mail out = Returns out.
Proof.
  rewrite !remove_rows_without_mail_unfold. intros H.
  apply keep_valid_fixed. by eapply keep_valid_all_valid.
Qed.

Lemma remove_rows_without_mail_idempotent_witness :
  remove_rows_without_mail
    [subject "a.b@c.com" (grade 30) NaN NaN NaN NaN NaN]
  = Returns [subject "a.b@c.com" (grade 30) NaN NaN NaN NaN NaN].
Proof.
  apply (remove_rows_without_mail_idempotent
           [subject "a.b@c.com" (grade 30) NaN NaN NaN NaN NaN;
            subject "ab@.com" (grade 31) NaN NaN NaN NaN NaN]).
  vm_compute. reflexivity.
Defined.

(** C10. A table with a row whose email is empty, or whose email ends with
    its only '@', makes [remove_rows_without_mail] raise IndexError instead
    of returning a table: the character at [find_first_at + 1] is read
    without a bounds check. *)
Theorem remove_rows_without_mail_index_error (data : table) (r : row) :
  r ∈ data →
  (email r = "" ∨ ∃ a, email r = a +:+ "@" ∧ str_find chr_at a = -1) →
  remove_rows_without_mail data = Raises IndexError.
Proof.
  intros Hin Hr. rewrite remove_rows_without_mail_unfold.
  apply (keep_valid_raises_at data r Hin).
  unfold valid_email. destruct Hr as [->|(a & -> & Ha)].
  - reflexivity.
  - by rewrite cond3_at_end.
Qed.

Lemma remove_rows_without_mail_index_error_witness :
  remove_rows_without_mail
    [subject "a.b@c.com" (grade 30) NaN NaN NaN NaN NaN;
     subject "a.b@" (grade 31) NaN NaN NaN NaN NaN]
  = Raises IndexError
  ∧ remove_rows_without_mail [subject "" (grade 31) NaN NaN NaN NaN NaN]
    = Raises IndexError.
Proof.
  split.
  - apply (remove_rows_without_mail_index_error _
             (subject "a.b@" (grade 31) NaN NaN NaN NaN NaN)).
    + apply elem_of_cons. right. apply elem_of_cons. left. reflexivity.
    + right. exists "a.b". split; reflexivity.
  - apply (remove_rows_without_mail_index_error _
             (subject "" (grade 31) NaN NaN NaN NaN NaN)).
    + apply elem_of_cons. left. reflexivity.
    + left. reflexivity.
Defined.

(** ** show_age_distrib *)

Lemma ascending_last lo edges :
  ascending lo edges → (lo <= List.last edges lo)%Q.
Proof.
  revert lo. induction edges as [|hi rest IH]; intros lo H.
  - simpl. lra.
  - destruct H as [Hle Hrest]. specialize (IH hi Hrest).
    destruct rest as [|hi' rest]; [exact Hle|].
    change (List.last (hi :: hi' :: rest) lo) with (List.last (hi' :: rest) lo).
    assert (List.last (hi' :: rest) lo = List.last (hi' :: rest) hi) as ->.
    { clear. revert hi'. induction rest as [|x rest IH]; intros hi'; [done|].
      change (List.last (hi' :: x :: rest) lo) with (List.last (x :: rest) lo).
      change (List.last (hi' :: x :: rest) hi) with (List.last (x :: rest) hi).
      apply IH. }
    lra.
Qed.

Lemma in_bin_split lo hi top (c : cell) :
  (lo <= hi)%Q → (hi <= top)%Q →
  (Nat.b2n (in_bin false lo hi c) + Nat.b2n (in_bin true hi top c))%nat
  = Nat.b2n (in_bin true lo top c).
Proof.
  intros H1 H2. destruct c as [x|]; [|reflexivity]. unfold in_bin.
  destruct (Qle_bool lo x) eqn:E1, (Qle_bool hi x) eqn:E2,
           (Qle_bool x top) eqn:E3; try reflexivity; exfalso;
    repeat match goal with
      | H : Qle_bool _ _ = true |- _ => apply Qle_bool_iff in H
      | H : Qle_bool _ _ = false |- _ =>
          apply not_true_iff_false in H; rewrite Qle_bool_iff in H
      end; lra.
Qed.

Lemma count_true_split lo hi top (a : list cell) :
  (lo <= hi)%Q → (hi <= top)%Q →
  (count_true (in_bin false lo hi) a + count_true (in_bin true hi top) a)%nat
  = count_true (in_bin true lo top) a.
Proof.
  intros H1 H2. unfold count_true.
  induction a as [|c a IH]; [reflexivity|].
  csimpl. rewrite <- IH, <- (in_bin_split lo hi top c H1 H2). lia.
Qed.

Lemma np_histogram_sum (a : list cell) lo hi rest :
  ascending lo (hi :: rest) →
  sum_list (np_histogram a (lo :: hi :: rest))
  = count_true (in_bin true lo (List.last (hi :: rest) lo)) a.
Proof.
  revert lo hi. induction rest as [|hi' rest IH]; intros lo hi Hasc.
  - simpl. lia.
  - destruct Hasc as [Hle Hrest].
    change (np_histogram a (lo :: hi :: hi' :: rest))
      with (count_true (in_bin false lo hi) a
              :: np_histogram a (hi :: hi' :: rest)).
    cbn [sum_list sum_list_with]. rewrite (IH hi hi' Hrest).
    pose proof (ascending_last hi (hi' :: rest) Hrest) as Hlast.
    assert (List.last (hi :: hi' :: rest) lo = List.last (hi' :: rest) hi) as ->.
    { clear. change (List.last (hi :: hi' :: rest) lo)
        with (List.last (hi' :: rest) lo).
      revert hi'. induction rest as [|x rest IH]; intros hi'; [done|].
      change (List.last (hi' :: x :: rest) lo) with (List.last (x :: rest) lo).
      change (List.last (hi' :: x :: rest) hi) with (List.last (x :: rest) hi).
      apply IH. }
    by apply count_true_split.
Qed.

Lemma np_histogram_length (a : list cell) (edges : list Q) :
  length (np_histogram a edges) = pred (length edges).
Proof.
  induction edges as [|lo [|hi rest] IH]; [reflexivity..|].
  change (np_histogram a (lo :: hi :: rest))
    with (count_true (in_bin (bool_decide (rest = [])) lo hi) a
            :: np_histogram a (hi :: rest)).
  cbn [length]. rewrite IH. reflexivity.
Qed.

Lemma bins_eq :
  np_linspace 0 100 11
  = [0; 10; 20; 30; 40; 50; 60; 70; 80; 90; 100]%Q.
Proof. vm_compute. reflexivity. Qed.

(** C4 (as amended). The histogram has 10 buckets and their counts add up
    to the number of rows whose age is present and lies in [0, 100]: NaN
    ages and ages outside the bin edges fall in no bucket. *)
Theorem show_age_distrib_total (data : table) :
  length (show_age_distrib data).1 = 10%nat
  ∧ sum_list (show_age_distrib data).1 = count_true age_in_range data.
Proof.
  unfold show_age_distrib. cbn [fst]. rewrite bins_eq. split.
  - by rewrite np_histogram_length.
  - rewrite np_histogram_sum.
    + unfold count_true, age_in_range. cbn [List.last].
      by rewrite <- list_fmap_compose.
    + cbn. repeat split; unfold Qle; simpl; lia.
Qed.

(** C4 (counterexample). A table with the single age 120 has one
    non-missing age, but the bucket counts add up to 0. *)
Lemma show_age_distrib_total_counterexample :
  sum_list (show_age_distrib [subject "a.b@c.com" (grade 120) NaN NaN NaN NaN NaN]).1
  ≠ count_true (λ r, negb (isna (age r)))
      [subject "a.b@c.com" (grade 120) NaN NaN NaN NaN NaN].
Proof. vm_compute. discriminate. Qed.

(** ** fill_na_with_mean *)

Lemma fill_na_with_mean_inv (data : table) (df : list frow)
    (arr : list nat) :
  fill_na_with_mean data = Returns (df, arr) →
  ∃ value, df = imap (fillna_row value) data.
Proof.
  unfold fill_na_with_mean. intros H.
  apply bind_inv in H as (m & _ & H).
  apply bind_inv in H as (arr' & _ & H).
  inversion H; subst. eauto.
Qed.

(** C5. In the table that [fill_na_with_mean] returns, every row of the
    original is there at the same position, and every q1..q5 cell that is
    present in the original holds the same value in it. *)
Theorem fill_na_with_mean_preserves_present
    (data : table) (df : list frow) (arr : list nat) (i : nat) (r : row) :
  fill_na_with_mean data = Returns (df, arr) →
  data !! i = Some r →
  ∃ r', df !! i = Some r'
    ∧ (∀ v, q1 r = Some v → q1 r' = Some (Finite v))
    ∧ (∀ v, q2 r = Some v → q2 r' = Some (Finite v))
    ∧ (∀ v, q3 r = Some v → q3 r' = Some (Finite v))
    ∧ (∀ v, q4 r = Some v → q4 r' = Some (Finite v))
    ∧ (∀ v, q5 r = Some v → q5 r' = Some (Finite v)).
Proof.
  intros H Hi. apply fill_na_with_mean_inv in H as (value & ->).
  exists (fillna_row value i r). split.
  - by rewrite list_lookup_imap, Hi.
  - repeat split; intros v Hv; simpl; by rewrite Hv.
Qed.

Lemma fill_na_with_mean_preserves_present_witness :
  ∃ r', one_row_filled !! 0%nat = Some r'
    ∧ (∀ v, grade 2 = Some v → q1 r' = Some (Finite v))
    ∧ (∀ v, grade 4 = Some v → q2 r' = Some (Finite v))
    ∧ (∀ v, NaN = Some v → q3 r' = Some (Finite v))
    ∧ (∀ v, grade 6 = Some v → q4 r' = Some (Finite v))
    ∧ (∀ v, grade 8 = Some v → q5 r' = Some (Finite v)).
Proof.
  apply (fill_na_with_mean_preserves_present
           [subject "a.b@c.com" (grade 30)
              (grade 2) (grade 4) NaN (grade 6) (grade 8)]
           one_row_filled
           [0%nat] 0
           (subject "a.b@c.com" (grade 30)
              (grade 2) (grade 4) NaN (grade 6) (grade 8))).
  - vm_compute. reflexivity.
  - reflexivity.
Defined.

Lemma np_broadcast_to_inv {A} (v : list A) (m : list (list A)) :
  np_broadcast_to v (5, 100)%nat = Returns m →
  (length v = 100%nat ∧ m = replicate 5 v)
  ∨ (∃ x, v = [x] ∧ m = replicate 5 (replicate 100 x)).
Proof.
  unfold np_broadcast_to. case_bool_decide as Hlen.
  - intros H. inversion H. by left.
  - destruct v as [|x [|y v]]; try discriminate.
    intros H. inversion H. right. eauto.
Qed.

Lemma np_broadcast_to_raises {A} (v : list A) :
  length v ≠ 100%nat → length v ≠ 1%nat →
  np_broadcast_to v (5, 100)%nat = Raises ValueError.
Proof.
  intros H100 H1. unfold np_broadcast_to.
  rewrite bool_decide_eq_false_2 by done.
  by destruct v as [|x [|y v]].
Qed.

Lemma np_broadcast_to_returns {A} (v : list A) :
  length v = 100%nat ∨ length v = 1%nat →
  ∃ m, np_broadcast_to v (5, 100)%nat = Returns m.
Proof.
  intros H. unfold np_broadcast_to. case_bool_decide as Hlen; [eauto|].
  destruct H as [H|H]; [done|].
  destruct v as [|x [|y v]]; try discriminate. eauto.
Qed.

Lemma frame_at_broadcast (v : list fcell) (m : list (list fcell)) i j x :
  np_broadcast_to v (5, 100)%nat = Returns m →
  v !! i = Some x → (j < 5)%nat →
  frame_at (np_transpose m 100) i j = x.
Proof.
  intros Hm Hv Hj. unfold frame_at, np_transpose.
  assert (Hi : (i < 100)%nat).
  { apply lookup_lt_Some in Hv.
    apply np_broadcast_to_inv in Hm as [[Hlen _]|(y & -> & _)]; simpl in *; lia. }
  rewrite list_lookup_fmap, lookup_seq_lt by done. simpl.
  apply np_broadcast_to_inv in Hm as [[_ ->]|(y & -> & ->)].
  - cbn [replicate omap list_omap]. rewrite Hv.
    by do 5 (destruct j as [|j]; [reflexivity|]); lia.
  - assert (i = 0%nat) as -> by (apply lookup_lt_Some in Hv; simpl in Hv; lia).
    inversion Hv; subst.
    cbn [replicate omap list_omap lookup list_lookup].
    by do 5 (destruct j as [|j]; [reflexivity|]); lia.
Qed.

Lemma fillna_rows_impute (data : table) (m : list (list fcell)) :
  np_broadcast_to (row_mean <$> data) (5, 100)%nat = Returns m →
  imap (fillna_row (np_transpose m 100)) data = impute <$> data.
Proof.
  intros Hm. apply list_eq. intros i.
  rewrite list_lookup_imap, list_lookup_fmap.
  destruct (data !! i) as [r|] eqn:Hi; [|reflexivity].
  simpl. f_equal. unfold fillna_row, impute.
  assert (Hv : (row_mean <$> data) !! i = Some (row_mean r))
    by (by rewrite list_lookup_fmap, Hi).
  by rewrite !(frame_at_broadcast _ _ _ _ _ Hm Hv) by lia.
Qed.

Lemma select_rows_with_nan (data : table) (i : nat) :
  select (seq i (length data))
         ((λ r, bool_decide (0 < count_nan r)%nat) <$> data)
  = rows_with_nan i data.
Proof.
  revert i. induction data as [|r data IH]; intros i; [reflexivity|].
  csimpl. rewrite IH. reflexivity.
Qed.

(** What [fill_na_with_mean] does on every table: with 100 rows, or one
    row, it returns the imputed rows and the positions of the rows that had
    a missing grade; with any other number of rows the broadcast to the
    shape (5, 100) raises ValueError. *)
Lemma fill_na_with_mean_spec (data : table) :
  fill_na_with_mean data =
  if bool_decide (length data = 100%nat ∨ length data = 1%nat)
  then Returns (impute <$> data, rows_with_nan 0 data)
  else Raises ValueError.
Proof.
  unfold fill_na_with_mean. case_bool_decide as Hlen.
  - destruct (np_broadcast_to_returns (row_mean <$> data)) as [m Hm].
    { by rewrite length_fmap. }
    rewrite Hm, bind_Returns, (fillna_rows_impute _ _ Hm).
    rewrite getitem_mask_same_length
      by (by rewrite length_fmap, length_seq).
    by rewrite bind_Returns, select_rows_with_nan.
  - rewrite np_broadcast_to_raises; [reflexivity|..];
      rewrite length_fmap; tauto.
Qed.

(** The example of the specification, as a table of one row (which the
    broadcast stretches). *)
Lemma fill_na_with_mean_one_row :
  fill_na_with_mean
    [subject "a.b@c.com" (grade 30) (grade 2) (grade 4) NaN (grade 6) (grade 8)]
  = Returns (one_row_filled, [0%nat]).
Proof. rewrite fill_na_with_mean_spec. vm_compute. reflexivity. Qed.

(** C1 (evaluation of the code at the failing input). On a table of two
    rows [fill_na_with_mean] returns no table: the broadcast of the two row
    means to the fixed shape (5, 100) raises ValueError. *)
Theorem fill_na_with_mean_two_rows :
  fill_na_with_mean
    [subject "a.b@c.com" (grade 30) (grade 2) (grade 4) NaN (grade 6) (grade 8);
     subject "d.e@f.com" (grade 40) (grade 1) (grade 1) (grade 1) (grade 1) (grade 1)]
  = Raises ValueError.
Proof. vm_compute. reflexivity. Qed.

(** ** score_subjects *)

Lemma safe_cast_uint8_floor (x : Q) :
  0 ≤ Qfloor x ≤ 255 →
  safe_cast_uint8 (Finite (inject_Z (Qfloor x))) = Returns (Qfloor x).
Proof.
  intros [H0 H255]. unfold safe_cast_uint8. rewrite Qfloor_Z.
  assert (Qeq_bool (inject_Z (Qfloor x)) (inject_Z (Qfloor x)) = true) as ->
    by (apply Qeq_bool_iff; reflexivity).
  destruct (Z.leb_spec 0 (Qfloor x)); [|lia].
  destruct (Z.leb_spec (Qfloor x) 255); [|lia].
  reflexivity.
Qed.

Lemma safe_cast_uint8_inv (x : float64) (z : Z) :
  safe_cast_uint8 x = Returns z →
  ∃ q, x = Finite q ∧ z = Qfloor q ∧ 0 ≤ z ≤ 255.
Proof.
  destruct x as [q|negative]; [|discriminate]. unfold safe_cast_uint8.
  destruct (Qeq_bool q (inject_Z (Qfloor q))); simpl; [|discriminate].
  destruct (Z.leb_spec 0 (Qfloor q)); simpl; [|discriminate].
  destruct (Z.leb_spec (Qfloor q) 255); simpl; [|discriminate].
  intros Hz. inversion Hz; subst. exists q. repeat split; lia.
Qed.

Lemma safe_cast_uint8_raises (x : float64) (e : exn) :
  safe_cast_uint8 x = Raises e → e = TypeError.
Proof.
  destruct x as [q|negative]; simpl.
  - case_match; intros Hx; by inversion Hx.
  - intros Hx. by inversion Hx.
Qed.

Lemma cast_uint8_raises (c : fcell) (e : exn) :
  cast_uint8 c = Raises e → e = TypeError.
Proof.
  destruct c as [x|]; [|discriminate]. simpl.
  destruct (safe_cast_uint8 x) as [z|e'] eqn:Hx; [discriminate|].
  intros He. inversion He; subst. by eapply safe_cast_uint8_raises.
Qed.

Lemma cast_uint8_floor (c : fcell) :
  fits_UInt8 c → cast_uint8 (np_floor c) = Returns (floor_UInt8 c).
Proof.
  destruct c as [[mu|negative]|];
    cbn [cast_uint8 np_floor floor_UInt8 fits_UInt8]; [|done|done].
  intros Hfit. by rewrite safe_cast_uint8_floor.
Qed.

Lemma cast_uint8_floor_inv (c : fcell) (y : UInt8) :
  cast_uint8 (np_floor c) = Returns y → fits_UInt8 c.
Proof.
  destruct c as [[mu|negative]|];
    cbn [cast_uint8 np_floor fits_UInt8]; [|discriminate|done].
  intros H. apply bind_inv in H as (z & Hz & _).
  apply safe_cast_uint8_inv in Hz as (q & Hq & -> & Hz).
  inversion Hq; subst q. by rewrite Qfloor_Z in Hz.
Qed.

Lemma for_each_elem {A B} (f : A → result B) (l : list A) (ys : list B) x :
  for_each f l = Returns ys → x ∈ l → ∃ y, f x = Returns y.
Proof.
  revert ys. induction l as [|a l IH]; intros ys H Hin.
  - by apply elem_of_nil in Hin.
  - simpl in H. apply bind_inv in H as (y & Hy & H).
    apply bind_inv in H as (ys' & Hys & _).
    apply elem_of_cons in Hin as [->|Hin]; eauto.
Qed.

Lemma for_each_raises {A B} (f : A → result B) (l : list A) (e : exn) :
  for_each f l = Raises e → ∃ x, x ∈ l ∧ f x = Raises e.
Proof.
  induction l as [|a l IH]; [discriminate|]. simpl.
  destruct (f a) as [y|e'] eqn:Ha.
  - rewrite bind_Returns.
    destruct (for_each f l) as [ys|e'] eqn:Hl; [discriminate|].
    intros H. inversion H; subst.
    destruct IH as (x & Hin & Hx); [done|]. exists x. split; [by right|done].
  - intros H. inversion H; subst. exists a. split; [by left|done].
Qed.

Lemma for_each_Forall {A B} (f : A → result B) (g : A → B) (l : list A) :
  Forall (λ x, f x = Returns (g x)) l → for_each f l = Returns (g <$> l).
Proof.
  induction 1 as [|x l Hx _ IH]; [reflexivity|].
  simpl. by rewrite Hx, bind_Returns, IH.
Qed.

(** The conversion of the greatest value raises nothing when no value is
    an infinity. *)
Lemma int_of_nanmax_finite (s : list fcell) :
  Forall (λ c, is_pinf c = false ∧ is_ninf c = false) s →
  (if forallb isna s then Returns () else int_of_nanmax s) = Returns ().
Proof.
  intros Hs. destruct (forallb isna s) eqn:Hna; [reflexivity|].
  unfold int_of_nanmax.
  assert (existsb is_pinf s = false) as ->.
  { clear Hna. induction Hs as [|c s [Hc _] _ IH]; [reflexivity|].
    simpl. by rewrite Hc, IH. }
  assert (forallb (λ c, isna c || is_ninf c) s = false) as ->; [|done].
  rewrite <- Hna. clear Hna.
  induction Hs as [|c s [_ Hc] _ IH]; [reflexivity|].
  simpl. by rewrite Hc, orb_false_r, IH.
Qed.

Lemma np_floor_finite (c : fcell) :
  fits_UInt8 c →
  is_pinf (np_floor c) = false ∧ is_ninf (np_floor c) = false.
Proof. by destruct c as [[mu|negative]|]. Qed.

Lemma astype_UInt8_floor (data : table) :
  (∀ r, r ∈ data → fits_UInt8 (row_mean r)) →
  astype_UInt8 (np_floor <$> (row_mean <$> data))
  = Returns ((λ r, floor_UInt8 (row_mean r)) <$> data).
Proof.
  intros Hfit. unfold astype_UInt8.
  rewrite int_of_nanmax_finite, bind_Returns.
  - rewrite <- list_fmap_compose.
    rewrite for_each_fmap.
    apply (for_each_Forall _ (λ r, floor_UInt8 (row_mean r))).
    apply Forall_forall. intros r Hr. simpl.
    apply cast_uint8_floor. by apply Hfit.
  - rewrite <- list_fmap_compose. apply Forall_fmap, Forall_forall.
    intros r Hr. simpl. apply np_floor_finite. by apply Hfit.
Qed.

Lemma score_subjects_fit (data : table) (m : Z) :
  (∀ r, r ∈ data → fits_UInt8 (row_mean r)) →
  score_subjects data m = Returns ((λ r, (r, score_of m r)) <$> data).
Proof.
  intros Hfit. unfold score_subjects.
  rewrite (astype_UInt8_floor data Hfit), bind_Returns.
  unfold setitem_mask. rewrite <- list_fmap_compose.
  rewrite zip_with_fmap_same.
  rewrite <- (list_fmap_id data) at 1. rewrite zip_with_fmap_same.
  reflexivity.
Qed.

Lemma astype_UInt8_inv (s : list fcell) (l : list UInt8) :
  astype_UInt8 s = Returns l → for_each cast_uint8 s = Returns l.
Proof.
  unfold astype_UInt8. intros H. by apply bind_inv in H as ([] & _ & H).
Qed.

(** Whenever [score_subjects] returns, the floor of every row mean is one
    that the conversion takes. *)
Lemma score_subjects_returns_fit (data : table) (m : Z) scored :
  score_subjects data m = Returns scored →
  ∀ r, r ∈ data → fits_UInt8 (row_mean r).
Proof.
  unfold score_subjects. intros H r Hr.
  apply bind_inv in H as (floored & Hfloored & _).
  apply astype_UInt8_inv in Hfloored.
  destruct (for_each_elem _ _ _ (np_floor (row_mean r)) Hfloored)
    as [y Hy].
  - by do 2 apply list_elem_of_fmap_2.
  - by eapply cast_uint8_floor_inv.
Qed.

(** The exceptions of the conversion. *)
Lemma int_of_nanmax_raises (s : list fcell) (e : exn) :
  int_of_nanmax s = Raises e → e = OverflowError ∨ e = ValueError.
Proof.
  unfold int_of_nanmax. repeat case_match; intros He; inversion He; auto.
Qed.

Lemma astype_UInt8_raises (s : list fcell) (e : exn) :
  astype_UInt8 s = Raises e →
  e = TypeError ∨ e = OverflowError ∨ e = ValueError.
Proof.
  unfold astype_UInt8.
  destruct (forallb isna s).
  - rewrite bind_Returns. intros H.
    apply for_each_raises in H as (c & _ & Hc).
    left. by eapply cast_uint8_raises.
  - destruct (int_of_nanmax s) as [[]|e'] eqn:Hmax.
    + rewrite bind_Returns. intros H.
      apply for_each_raises in H as (c & _ & Hc).
      left. by eapply cast_uint8_raises.
    + intros H. inversion H; subst. right.
      by eapply int_of_nanmax_raises.
Qed.

Lemma score_subjects_raises (data : table) (m : Z) (e : exn) :
  score_subjects data m = Raises e →
  e = TypeError ∨ e = OverflowError ∨ e = ValueError.
Proof.
  unfold score_subjects.
  destruct (astype_UInt8 (np_floor <$> (row_mean <$> data)))
    as [floored|e'] eqn:Hfloored; [discriminate|].
  intros H. inversion H; subst. by eapply astype_UInt8_raises.
Qed.



(** Whenever [score_subjects] returns, every score is NA or a value of
    0..255. *)
Lemma score_subjects_uint8 (data : table) (m : Z) scored r (z : Z) :
  score_subjects data m = Returns scored →
  (r, Some z) ∈ scored → 0 ≤ z ≤ 255.
Proof.
  intros H Hin.
  pose proof (score_subjects_returns_fit data m scored H) as Hfit.
  rewrite (score_subjects_fit data m Hfit) in H. inversion H; subst.
  apply list_elem_of_fmap in Hin as (r' & Heq & Hr').
  inversion Heq as [[Hr Hz]]. subst r'. unfold score_of in Hz.
  destruct (m <? Z.of_nat (count_nan r)); [discriminate|].
  specialize (Hfit r Hr').
  destruct (row_mean r) as [[mu|negative]|]; try discriminate.
  simpl in Hz, Hfit. inversion Hz. lia.
Qed.

Lemma row_mean_None (r : row) : row_mean r = None ↔ count_nan r = 5%nat.
Proof.
  unfold row_mean, count_nan, grades, nanmean, count_true.
  destruct (q1 r), (q2 r), (q3 r), (q4 r), (q5 r); cbn [omap list_omap id];
    split; (discriminate || reflexivity).
Qed.





(** ** The object and the heap *)

Lemma fresh_lookup (h : heap) : h !! fresh (dom h) = None.
Proof. apply not_elem_of_dom, is_fresh. Qed.

Lemma run_bind {A B} (m : M A) (k : A → M B) (h : heap) :
  (m ≫= k) h =
  match m h with
  | (Returns a, h') => k a h'
  | (Raises e, h') => (Raises e, h')
  end.
Proof. reflexivity. Qed.

Lemma run_lift_bind {A B} (r : result A) (k : A → M B) (h : heap) :
  (lift r ≫= k) h =
  match r with
  | Returns a => k a h
  | Raises e => (Raises e, h)
  end.
Proof. rewrite run_bind. unfold lift. by destruct r. Qed.

Lemma run_load_frame (l : loc) (h : heap) (df : DataFrame) :
  h !! l = Some (Frame df) → load_frame l h = (Returns df, h).
Proof. intros H. unfold load_frame. rewrite run_bind. unfold load. by rewrite H. Qed.

Lemma run_load_series (l : loc) (h : heap) (s : list UInt8) :
  h !! l = Some (Series s) → load_series l h = (Returns s, h).
Proof. intros H. unfold load_series. rewrite run_bind. unfold load. by rewrite H. Qed.

Lemma fresh_ne (h : heap) (l : loc) (o : obj) :
  h !! l = Some o → fresh (dom h) ≠ l.
Proof. intros H Heq. by rewrite <- Heq, fresh_lookup in H. Qed.

Lemma score_subjects_run (this : QuestionnaireAnalysis.self) (m : Z)
    (h : heap) (df : DataFrame) :
  h !! QuestionnaireAnalysis.data this = Some (Frame df) →
  QuestionnaireAnalysis.score_subjects this m h =
  match score_subjects (rows df) m with
  | Raises e => (Raises e, h)
  | Returns scored =>
      let h1 := <[fresh (dom h) := Series scored.*2]> h in
      (Returns (fresh (dom h1)),
       <[fresh (dom h1) := ScoredFrame (columns df) scored]> h1)
  end.
Proof.
  intros Hdata.
  unfold QuestionnaireAnalysis.score_subjects, score_subjects.
  rewrite run_bind, (run_load_frame _ _ _ Hdata).
  cbn zeta. set (block := rows df).
  rewrite run_lift_bind.
  destruct (astype_UInt8 (np_floor <$> (row_mean <$> block)))
    as [floored|e] eqn:Hfloored; [|reflexivity].
  rewrite bind_Returns.
  set (mask := (λ k : nat, m <? Z.of_nat k) <$> (count_nan <$> block)).
  rewrite run_bind. unfold new at 1. cbn beta iota zeta.
  rewrite run_bind, (run_load_series _ _ floored) by apply lookup_insert_eq.
  rewrite run_bind. unfold store at 1. cbn beta iota zeta.
  rewrite insert_insert_eq.
  rewrite run_bind, (run_load_frame _ _ df)
    by (rewrite lookup_insert_ne; [done | by eapply fresh_ne]).
  rewrite run_bind. unfold new at 1. cbn beta iota zeta.
  rewrite run_bind, (run_load_frame _ _ df) by apply lookup_insert_eq.
  rewrite run_bind, (run_load_series _ _ (setitem_mask floored mask None)).
  2:{ rewrite lookup_insert_ne; [apply lookup_insert_eq|].
      eapply fresh_ne. apply lookup_insert_eq. }
  rewrite run_bind. unfold store at 1. cbn beta iota zeta.
  rewrite insert_insert_eq.
  assert (Hsnd : (zip block (setitem_mask floored mask None)).*2
                 = setitem_mask floored mask None).
  { apply snd_zip. unfold setitem_mask. rewrite length_zip_with.
    apply astype_UInt8_inv, for_each_length in Hfloored.
    rewrite !length_fmap in Hfloored. lia. }
  cbn zeta. rewrite Hsnd. reflexivity.
Qed.

Lemma show_age_distrib_run (this : QuestionnaireAnalysis.self)
    (h : heap) (df : DataFrame) :
  h !! QuestionnaireAnalysis.data this = Some (Frame df) →
  QuestionnaireAnalysis.show_age_distrib this h =
  match getitem df Age with
  | Raises e => (Raises e, h)
  | Returns ages => (Returns (show_age_distrib ages), h)
  end.
Proof.
  intros Hdata. unfold QuestionnaireAnalysis.show_age_distrib.
  rewrite run_bind, (run_load_frame _ _ _ Hdata), run_lift_bind.
  by destruct (getitem df Age).
Qed.

Lemma remove_rows_without_mail_run (this : QuestionnaireAnalysis.self)
    (h : heap) (df : DataFrame) :
  h !! QuestionnaireAnalysis.data this = Some (Frame df) →
  QuestionnaireAnalysis.remove_rows_without_mail this h =
  match emails ← getitem df Email; str_accessor emails with
  | Raises e => (Raises e, h)
  | Returns emails =>
      match remove_rows_without_mail emails with
      | Raises e => (Raises e, h)
      | Returns kept =>
          let o := Frame {| columns := columns df; rows := kept |} in
          let h1 := <[fresh (dom h) := o]> h in
          (Returns (fresh (dom h1)), <[fresh (dom h1) := o]> h1)
      end
  end.
Proof.
  intros Hdata. unfold QuestionnaireAnalysis.remove_rows_without_mail.
  rewrite run_bind, (run_load_frame _ _ _ Hdata), run_lift_bind.
  destruct (getitem df Email) as [column|e]; [|reflexivity].
  rewrite bind_Returns, run_lift_bind.
  destruct (str_accessor column) as [emails|e]; [|reflexivity].
  rewrite run_lift_bind.
  destruct (remove_rows_without_mail emails) as [kept|e]; [|reflexivity].
  rewrite run_bind. unfold new at 1. cbn beta iota zeta.
  rewrite run_bind.
  by rewrite (run_load_frame _ _ {| columns := columns df; rows := kept |})
    by apply lookup_insert_eq.
Qed.

Lemma fill_na_with_mean_run (this : QuestionnaireAnalysis.self)
    (h : heap) (df : DataFrame) :
  h !! QuestionnaireAnalysis.data this = Some (Frame df) →
  QuestionnaireAnalysis.fill_na_with_mean this h =
  match fill_na_with_mean (rows df) with
  | Raises e => (Raises e, h)
  | Returns filled =>
      (Returns (fresh (dom h), filled.2),
       <[fresh (dom h) := FilledFrame (columns df) filled.1]> h)
  end.
Proof.
  intros Hdata. unfold QuestionnaireAnalysis.fill_na_with_mean.
  rewrite run_bind, (run_load_frame _ _ _ Hdata), run_lift_bind.
  by destruct (fill_na_with_mean (rows df)) as [filled|e].
Qed.

Lemma heap_grows (h : heap) (o : obj) : h ⊆ <[fresh (dom h) := o]> h.
Proof. apply insert_subseteq, fresh_lookup. Qed.

Lemma heap_grows_twice (h : heap) (o1 o2 : obj) :
  h ⊆ <[fresh (dom (<[fresh (dom h) := o1]> h)) := o2]>
        (<[fresh (dom h) := o1]> h).
Proof. etrans; apply heap_grows. Qed.

(** Every object that exists before a call is the same after it. *)
Lemma invoke_frame (this : QuestionnaireAnalysis.self)
    (c : QuestionnaireAnalysis.call) (h : heap) (df : DataFrame) :
  h !! QuestionnaireAnalysis.data this = Some (Frame df) →
  h ⊆ (QuestionnaireAnalysis.invoke this c h).2.
Proof.
  intros Hdata. destruct c as [| | |m]; unfold QuestionnaireAnalysis.invoke;
    rewrite run_bind.
  - rewrite (show_age_distrib_run _ _ _ Hdata).
    by destruct (getitem df Age).
  - rewrite (remove_rows_without_mail_run _ _ _ Hdata).
    destruct (emails ← getitem df Email; str_accessor emails)
      as [emails|e]; [|done].
    destruct (remove_rows_without_mail emails); [|done].
    apply heap_grows_twice.
  - rewrite (fill_na_with_mean_run _ _ _ Hdata).
    destruct (fill_na_with_mean (rows df)); [|done].
    apply heap_grows.
  - rewrite (score_subjects_run _ _ _ _ Hdata).
    destruct (score_subjects (rows df) m); [|done].
    apply heap_grows_twice.
Qed.

Lemma invoke_all_frame (this : QuestionnaireAnalysis.self)
    (cs : list QuestionnaireAnalysis.call) (h : heap) (df : DataFrame) :
  h !! QuestionnaireAnalysis.data this = Some (Frame df) →
  h ⊆ QuestionnaireAnalysis.invoke_all this cs h.
Proof.
  revert h. induction cs as [|c cs IH]; intros h Hdata; [done|].
  simpl. etrans; [by eapply invoke_frame|].
  apply IH. eapply lookup_weaken; [exact Hdata|]. by eapply invoke_frame.
Qed.

(** The table that a transforming call returns lives at a location that
    held no object before the call. *)
Lemma invoke_fresh (this : QuestionnaireAnalysis.self)
    (c : QuestionnaireAnalysis.call) (h h' : heap) (df : DataFrame)
    (v : QuestionnaireAnalysis.value) :
  h !! QuestionnaireAnalysis.data this = Some (Frame df) →
  QuestionnaireAnalysis.invoke this c h = (Returns v, h') →
  match v with
  | QuestionnaireAnalysis.Histogram _ _ => True
  | QuestionnaireAnalysis.Table l
  | QuestionnaireAnalysis.TableAndIndices l _ =>
      h !! l = None ∧ l ≠ QuestionnaireAnalysis.data this
      ∧ ∃ o, h' !! l = Some o ∧ is_table o
  end.
Proof.
  intros Hdata. destruct c as [| | |m]; unfold QuestionnaireAnalysis.invoke;
    rewrite run_bind.
  - rewrite (show_age_distrib_run _ _ _ Hdata).
    destruct (getitem df Age); intros H; inversion H; by subst.
  - rewrite (remove_rows_without_mail_run _ _ _ Hdata).
    destruct (emails ← getitem df Email; str_accessor emails)
      as [emails|e]; [|discriminate].
    destruct (remove_rows_without_mail emails) as [kept|e]; [|discriminate].
    intros H; inversion H; subst. split; [|split].
    + eapply lookup_weaken_None; [apply fresh_lookup | apply heap_grows].
    + eapply fresh_ne, lookup_weaken; [exact Hdata | apply heap_grows].
    + eexists. split; [apply lookup_insert_eq | exact I].
  - rewrite (fill_na_with_mean_run _ _ _ Hdata).
    destruct (fill_na_with_mean (rows df)) as [filled|e]; [|discriminate].
    intros H; inversion H; subst. split; [|split].
    + apply fresh_lookup.
    + by eapply fresh_ne.
    + eexists. split; [apply lookup_insert_eq | exact I].
  - rewrite (score_subjects_run _ _ _ _ Hdata).
    destruct (score_subjects (rows df) m) as [scored|e]; [|discriminate].
    intros H; inversion H; subst. split; [|split].
    + eapply lookup_weaken_None; [apply fresh_lookup | apply heap_grows].
    + eapply fresh_ne, lookup_weaken; [exact Hdata | apply heap_grows].
    + eexists. split; [apply lookup_insert_eq | exact I].
Qed.

Lemma init_run fs parse name (h : heap) :
  QuestionnaireAnalysis.__init__ fs parse name h =
  match QuestionnaireAnalysis.pd_read_json fs parse (path_of name) with
  | Raises e => (Raises e, h)
  | Returns df =>
      (Returns {| QuestionnaireAnalysis.data_fname := path_of name;
                  QuestionnaireAnalysis.data := fresh (dom h) |},
       <[fresh (dom h) := Frame df]> h)
  end.
Proof.
  unfold QuestionnaireAnalysis.__init__, QuestionnaireAnalysis.read_data.
  rewrite run_bind, run_lift_bind.
  destruct name; simpl;
    by destruct (QuestionnaireAnalysis.pd_read_json fs parse _).
Qed.

(** C8. After construction the object holds the table that was read, and
    whatever sequence of the four operations is invoked (returning or
    raising), the object still holds that table. A further call changes no
    object that exists before it, and when it returns a table, the table is
    a new object: its location held nothing before the call and is not the
    location of the stored table. *)
Theorem operations_never_mutate_the_table fs parse name (h0 h : heap)
    (this : QuestionnaireAnalysis.self) :
  QuestionnaireAnalysis.__init__ fs parse name h0 = (Returns this, h) →
  ∃ df,
    QuestionnaireAnalysis.pd_read_json fs parse
      (QuestionnaireAnalysis.data_fname this) = Returns df
    ∧ ∀ cs,
        let g := QuestionnaireAnalysis.invoke_all this cs h in
        g !! QuestionnaireAnalysis.data this = Some (Frame df)
        ∧ ∀ c,
            g ⊆ (QuestionnaireAnalysis.invoke this c g).2
            ∧ ∀ v g',
                QuestionnaireAnalysis.invoke this c g = (Returns v, g') →
                match v with
                | QuestionnaireAnalysis.Histogram _ _ => True
                | QuestionnaireAnalysis.Table l
                | QuestionnaireAnalysis.TableAndIndices l _ =>
                    g !! l = None ∧ l ≠ QuestionnaireAnalysis.data this
                    ∧ ∃ o, g' !! l = Some o ∧ is_table o
                end.
Proof.
  rewrite init_run.
  destruct (QuestionnaireAnalysis.pd_read_json fs parse (path_of name))
    as [df|e] eqn:Hread; [|discriminate].
  intros H. inversion H; subst. clear H. exists df. split; [exact Hread|].
  set (this := {| QuestionnaireAnalysis.data_fname := path_of name;
                  QuestionnaireAnalysis.data := fresh (dom h0) |}).
  intros cs g.
  assert (Hg : g !! QuestionnaireAnalysis.data this = Some (Frame df)).
  { eapply lookup_weaken; [apply lookup_insert_eq|].
    apply (invoke_all_frame this cs _ df). apply lookup_insert_eq. }
  split; [exact Hg|]. intros c. split.
  - by eapply invoke_frame.
  - intros v g' Hc. by eapply invoke_fresh.
Qed.

Lemma operations_never_mutate_the_table_witness :
  ∃ df,
    QuestionnaireAnalysis.pd_read_json sample_fs sample_parse
      (QuestionnaireAnalysis.data_fname sample_self) = Returns df
    ∧ ∀ cs,
        let g := QuestionnaireAnalysis.invoke_all sample_self cs sample_heap in
        g !! QuestionnaireAnalysis.data sample_self = Some (Frame df)
        ∧ ∀ c,
            g ⊆ (QuestionnaireAnalysis.invoke sample_self c g).2
            ∧ ∀ v g',
                QuestionnaireAnalysis.invoke sample_self c g = (Returns v, g') →
                match v with
                | QuestionnaireAnalysis.Histogram _ _ => True
                | QuestionnaireAnalysis.Table l
                | QuestionnaireAnalysis.TableAndIndices l _ =>
                    g !! l = None ∧ l ≠ QuestionnaireAnalysis.data sample_self
                    ∧ ∃ o, g' !! l = Some o ∧ is_table o
                end.
Proof.
  apply (operations_never_mutate_the_table
           sample_fs sample_parse (AsStr "data.json") ∅).
  reflexivity.
Defined.

(** ** Errors *)





(** * Further properties of the operations *)

(** ** fill_na_with_mean *)

(** X1. [fill_na_with_mean] returns a table exactly when the table has 100
    rows or one row; on every other table it raises, and the only exception
    it raises is ValueError. *)
Theorem fill_na_with_mean_returns_iff (data : table) :
  ((∃ out, fill_na_with_mean data = Returns out)
   ↔ length data = 100%nat ∨ length data = 1%nat)
  ∧ ∀ e, fill_na_with_mean data = Raises e → e = ValueError.
Proof.
  rewrite fill_na_with_mean_spec. case_bool_decide as Hlen; split.
  - split; [done | eauto].
  - discriminate.
  - split; [by intros [out ?] | done].
  - intros e H. by inversion H.
Qed.

Lemma fill_na_with_mean_returns_iff_witness :
  ∃ out, fill_na_with_mean one_row = Returns out.
Proof.
  apply (fill_na_with_mean_returns_iff one_row).
  right. reflexivity.
Defined.

(** The mean of a row in binary64: 1 + 2^53 is rounded to 2^53, so that
    the sum of 1, 2^53, -2^53, 2 is 2 and the mean 0.5; the mean of 1, 2, 2
    is the binary64 number nearest to 5/3; the mean of 1, 2^53, -2^53, 2, 2
    is the one nearest to 4/5; and the sum of five grades of 2^1023
    overflows. *)
Example nanmean_examples :
  nanmean [grade 1; grade (2 ^ 53); grade (- 2 ^ 53); grade 2; NaN]
  = Some (Finite (1 # 2))
  ∧ nanmean [grade 1; grade 2; grade 2; NaN; NaN]
    = Some (Finite (7505999378950827 # 4503599627370496))
  ∧ row_mean rounded_row
    = Some (Finite (3602879701896397 # 4503599627370496))
  ∧ row_mean overflowing_row = Some (Infinite false).
Proof. repeat split; vm_compute; reflexivity. Qed.



Lemma impute_clean (r : row) : count_nan r = 0%nat → impute r = as_float64 r.
Proof.
  destruct r as [o a e [x1|] [x2|] [x3|] [x4|] [x5|]]; try discriminate.
  reflexivity.
Qed.

Lemma rows_with_nan_clean (data : table) (s : nat) :
  (∀ r, r ∈ data → count_nan r = 0%nat) → rows_with_nan s data = [].
Proof.
  revert s. induction data as [|r data IH]; intros s Hclean; [reflexivity|].
  simpl. rewrite (Hclean r) by (by left). simpl.
  apply IH. intros r' Hr'. apply Hclean. by right.
Qed.

(** X3. On a table without a missing grade (of 100 rows, or one)
    [fill_na_with_mean] returns the table as it is, and an empty list of
    row indices. *)
Theorem fill_na_with_mean_clean (data : table) :
  length data = 100%nat ∨ length data = 1%nat →
  (∀ r, r ∈ data → count_nan r = 0%nat) →
  fill_na_with_mean data = Returns (as_float64 <$> data, []).
Proof.
  intros Hlen Hclean. rewrite fill_na_with_mean_spec.
  rewrite bool_decide_eq_true_2 by done.
  rewrite rows_with_nan_clean by done. do 2 f_equal.
  apply list_fmap_ext. intros i r Hi. apply impute_clean, Hclean.
  by eapply list_elem_of_lookup_2.
Qed.

Lemma fill_na_with_mean_clean_witness :
  fill_na_with_mean one_clean_row
  = Returns (as_float64 <$> one_clean_row, []).
Proof.
  apply fill_na_with_mean_clean.
  - right. reflexivity.
  - intros r Hr. apply elem_of_cons in Hr as [->|Hr];
      [reflexivity | by apply elem_of_nil in Hr].
Defined.

Lemma rows_with_nan_elem (data : table) (s i : nat) :
  i ∈ rows_with_nan s data ↔
  (s ≤ i)%nat ∧ ∃ r, data !! (i - s)%nat = Some r ∧ (0 < count_nan r)%nat.
Proof.
  revert s. induction data as [|r data IH]; intros s.
  - simpl. split; [by intros ?%elem_of_nil | by intros [_ (? & ? & _)]].
  - simpl. case_bool_decide as Hnan.
    + rewrite elem_of_cons, IH. split.
      * intros [->|[Hle (r' & Hr' & Hpos)]].
        -- split; [lia|]. exists r. by rewrite Nat.sub_diag.
        -- split; [lia|]. exists r'. split; [|done].
           replace (i - s)%nat with (S (i - S s)) by lia. done.
      * intros [Hle (r' & Hr' & Hpos)].
        destruct (decide (i = s)) as [->|Hne]; [by left|]. right.
        split; [lia|]. exists r'. split; [|done].
        replace (i - s)%nat with (S (i - S s)) in Hr' by lia. done.
    + rewrite IH. split.
      * intros [Hle (r' & Hr' & Hpos)]. split; [lia|]. exists r'.
        split; [|done]. replace (i - s)%nat with (S (i - S s)) by lia. done.
      * intros [Hle (r' & Hr' & Hpos)].
        destruct (decide (i = s)) as [->|Hne].
        -- rewrite Nat.sub_diag in Hr'. simpl in Hr'. by inversion Hr'; subst.
        -- split; [lia|]. exists r'. split; [|done].
           replace (i - s)%nat with (S (i - S s)) in Hr' by lia. done.
Qed.

Lemma rows_with_nan_ascending (data : table) (s j k a b : nat) :
  (j < k)%nat → rows_with_nan s data !! j = Some a →
  rows_with_nan s data !! k = Some b → (a < b)%nat.
Proof.
  revert s j k. induction data as [|r data IH]; intros s j k Hjk Ha Hb;
    [done|].
  simpl in Ha, Hb. case_bool_decide as Hnan; [|by eapply IH].
  destruct k as [|k]; [lia|]. simpl in Hb.
  destruct j as [|j].
  - inversion Ha; subst.
    apply list_elem_of_lookup_2, rows_with_nan_elem in Hb. lia.
  - simpl in Ha. eapply (IH (S s) j k); [lia|done..].
Qed.

(** X4. The list of row indices that [fill_na_with_mean] returns holds
    exactly the 0-based positions of the rows with at least one missing
    grade, in ascending order and without repetition. *)
Theorem fill_na_with_mean_indices (data : table) (df : list frow)
    (arr : list nat) :
  fill_na_with_mean data = Returns (df, arr) →
  (∀ i, i ∈ arr ↔ ∃ r, data !! i = Some r ∧ (0 < count_nan r)%nat)
  ∧ (∀ j k a b, (j < k)%nat → arr !! j = Some a → arr !! k = Some b →
       (a < b)%nat).
Proof.
  rewrite fill_na_with_mean_spec. case_bool_decide as Hlen; [|discriminate].
  intros H. inversion H; subst. split.
  - intros i. rewrite rows_with_nan_elem, Nat.sub_0_r.
    split; [by intros [_ ?] | intros ?; split; [lia | done]].
  - intros j k a b. apply rows_with_nan_ascending.
Qed.

Lemma fill_na_with_mean_indices_witness :
  (∀ i, i ∈ [0%nat] ↔ ∃ r, one_row !! i = Some r ∧ (0 < count_nan r)%nat)
  ∧ (∀ j k a b, (j < k)%nat → [0%nat] !! j = Some a → [0%nat] !! k = Some b →
       (a < b)%nat).
Proof.
  apply (fill_na_with_mean_indices one_row one_row_filled [0%nat]).
  vm_compute. reflexivity.
Defined.

(** X5. In the table that [fill_na_with_mean] returns no row is partly
    answered: a row has all five grades, or (when the original row had no
    grade at all) none, being that row of the original. *)
Theorem fill_na_with_mean_complete_rows (data : table) (df : list frow)
    (arr : list nat) (r' : frow) :
  fill_na_with_mean data = Returns (df, arr) →
  r' ∈ df →
  count_nan r' = 0%nat
  ∨ (count_nan r' = 5%nat ∧ ∃ r, r ∈ data ∧ r' = as_float64 r).
Proof.
  rewrite fill_na_with_mean_spec. case_bool_decide as Hlen; [|discriminate].
  intros H Hin. inversion H; subst.
  apply list_elem_of_fmap in Hin as (r & -> & Hr).
  destruct r as [o a e [x1|] [x2|] [x3|] [x4|] [x5|]];
    try (left; reflexivity).
  right. split; [reflexivity|]. eexists. split; [exact Hr | reflexivity].
Qed.

Lemma fill_na_with_mean_complete_rows_witness :
  count_nan (as_float64
               (subject "a.b@c.com" (grade 30)
                  (grade 2) (grade 4) (grade 5) (grade 6) (grade 8))) = 0%nat
  ∨ (count_nan (as_float64
                  (subject "a.b@c.com" (grade 30)
                     (grade 2) (grade 4) (grade 5) (grade 6) (grade 8)))
     = 5%nat
     ∧ ∃ r, r ∈ one_row
            ∧ as_float64
                (subject "a.b@c.com" (grade 30)
                   (grade 2) (grade 4) (grade 5) (grade 6) (grade 8))
              = as_float64 r).
Proof.
  apply (fill_na_with_mean_complete_rows one_row one_row_filled [0%nat]).
  - vm_compute. reflexivity.
  - apply elem_of_cons. left. reflexivity.
Defined.

(** X6. [fill_na_with_mean] returns as many rows as the table has, and in
    no row does it change the age, the email or a column other than
    q1..q5: a missing age stays missing. *)
Theorem fill_na_with_mean_other_columns (data : table) (df : list frow)
    (arr : list nat) :
  fill_na_with_mean data = Returns (df, arr) →
  length df = length data
  ∧ ∀ i r r', data !! i = Some r → df !! i = Some r' →
      age r' = Finite <$> age r ∧ email r' = email r ∧ rest r' = rest r.
Proof.
  intros H. apply fill_na_with_mean_inv in H as (value & ->). split.
  - apply length_imap.
  - intros i r r' Hr Hr'. rewrite list_lookup_imap, Hr in Hr'.
    inversion Hr'; subst. done.
Qed.

Lemma fill_na_with_mean_other_columns_witness :
  length one_row_filled = length one_row
  ∧ ∀ i r r', one_row !! i = Some r → one_row_filled !! i = Some r' →
      age r' = Finite <$> age r ∧ email r' = email r ∧ rest r' = rest r.
Proof.
  apply (fill_na_with_mean_other_columns one_row one_row_filled [0%nat]).
  vm_compute. reflexivity.
Defined.

(** ** remove_rows_without_mail *)

Lemma valid_email_returns (e : string) :
  (∃ b, valid_email e = Returns b) ↔ str_find chr_at e + 1 < str_len e.
Proof.
  destruct (valid_email_rule e) as [Hraise Hret]. split.
  - intros [b Hb]. destruct (Z.lt_ge_cases (str_find chr_at e + 1) (str_len e))
      as [Hlt|Hge]; [done|].
    rewrite Hraise in Hb by done. discriminate.
  - intros Hlt. destruct (Hret Hlt) as (a & _ & ->). eauto.
Qed.

Lemma valid_email_passes (e : string) (b : bool) :
  valid_email e = Returns b → b = passes e.
Proof.
  intros Hb. destruct (valid_email_rule e) as [_ Hret].
  assert (Hlt : str_find chr_at e + 1 < str_len e)
    by (apply valid_email_returns; eauto).
  destruct (Hret Hlt) as (a & Ha & Hv).
  rewrite Hv in Hb. inversion Hb; subst. unfold passes, char_after_at.
  rewrite Ha. f_equal.
  destruct (Ascii.eqb_spec a chr_dot) as [Heq|Hne].
  - rewrite bool_decide_eq_true_2; [done | by rewrite Heq].
  - rewrite bool_decide_eq_false_2; [done|]. intros Heq. by inversion Heq.
Qed.

Lemma keep_valid_returns (data : table) :
  (∃ out, keep_valid data = Returns out) ↔
  ∀ r, r ∈ data → str_find chr_at (email r) + 1 < str_len (email r).
Proof.
  induction data as [|r data IH].
  - split; [by intros _ r ?%elem_of_nil | simpl; eauto].
  - split.
    + intros [out Hout] r' Hr'. simpl in Hout.
      apply bind_inv in Hout as (b & Hb & Hout).
      apply bind_inv in Hout as (out' & Hout' & _).
      apply elem_of_cons in Hr' as [->|Hr'].
      * apply valid_email_returns. eauto.
      * apply IH; eauto.
    + intros Hall.
      destruct (proj2 (valid_email_returns (email r))) as [b Hb].
      { apply Hall. by left. }
      destruct (proj2 IH) as [out Hout].
      { intros r' Hr'. apply Hall. by right. }
      simpl. rewrite Hb, bind_Returns, Hout. eauto.
Qed.

Lemma keep_valid_raises_elem (data : table) (e : exn) :
  keep_valid data = Raises e →
  ∃ r, r ∈ data ∧ str_len (email r) ≤ str_find chr_at (email r) + 1.
Proof.
  intros H.
  destruct (decide (Forall (λ r, str_find chr_at (email r) + 1
                                 < str_len (email r)) data)) as [Hall|Hsome].
  - rewrite Forall_forall in Hall.
    apply keep_valid_returns in Hall as [out Hout].
    rewrite Hout in H. discriminate.
  - apply not_Forall_Exists in Hsome; [|intros r; apply _].
    apply Exists_exists in Hsome as (r & Hr & Hbad).
    exists r. split; [done|]. simpl in Hbad. lia.
Qed.

(** X7. On the table as it was loaded, [remove_rows_without_mail] returns
    a table exactly when the table has the column 'email', at least one
    row, and in every email a character at the position after its first
    '@' (position 0 when it has no '@'). Otherwise it raises, leaving the
    heap as it is: KeyError without the column, AttributeError when the
    loaded table has no row (the [.str] accessor refuses the empty column),
    and IndexError for an email without that character. *)
Theorem remove_rows_without_mail_returns_iff
    (this : QuestionnaireAnalysis.self) (h : heap) (df : DataFrame) :
  h !! QuestionnaireAnalysis.data this = Some (Frame df) →
  ((∃ l h',
      QuestionnaireAnalysis.remove_rows_without_mail this h = (Returns l, h'))
   ↔ Email ∈ columns df ∧ rows df ≠ []
     ∧ ∀ r, r ∈ rows df →
            str_find chr_at (email r) + 1 < str_len (email r))
  ∧ ∀ e h',
      QuestionnaireAnalysis.remove_rows_without_mail this h = (Raises e, h') →
      h' = h
      ∧ ((e = KeyError "email" ∧ Email ∉ columns df)
         ∨ (e = AttributeError ∧ Email ∈ columns df ∧ rows df = [])
         ∨ (e = IndexError ∧ Email ∈ columns df
            ∧ ∃ r, r ∈ rows df
                   ∧ str_len (email r) ≤ str_find chr_at (email r) + 1)).
Proof.
  intros Hdata. rewrite (remove_rows_without_mail_run _ _ _ Hdata).
  unfold getitem. case_bool_decide as Hcol.
  - rewrite bind_Returns. unfold str_accessor.
    destruct (rows df) as [|r0 data] eqn:Hrows.
    + split.
      * split; [by intros (l & h' & ?) | by intros (_ & ? & _)].
      * intros e h' H. inversion H; subst. split; [done|]. right. by left.
    + rewrite remove_rows_without_mail_unfold.
      destruct (keep_valid (r0 :: data)) as [kept|e'] eqn:Hk.
      * split.
        -- split; [|eauto]. intros _. split; [done|]. split; [done|].
           apply keep_valid_returns. eauto.
        -- intros e h' H. discriminate.
      * split.
        -- split; [by intros (l & h' & ?)|].
           intros (_ & _ & Hall). apply keep_valid_returns in Hall as [out Ho].
           rewrite Ho in Hk. discriminate.
        -- intros e h' H. inversion H; subst. split; [done|]. do 2 right.
           split; [by eapply keep_valid_raises|]. split; [done|].
           by eapply keep_valid_raises_elem.
  - split.
    + split; [by intros (l & h' & ?) | by intros (? & _)].
    + intros e h' H. inversion H; subst. split; [done|]. by left.
Qed.

Lemma remove_rows_without_mail_returns_iff_witness :
  ∃ l h',
    QuestionnaireAnalysis.remove_rows_without_mail sample_self sample_heap
    = (Returns l, h').
Proof.
  apply (remove_rows_without_mail_returns_iff
           sample_self sample_heap sample_frame).
  - reflexivity.
  - split; [|split].
    + apply list_elem_of_further, list_elem_of_here.
    + discriminate.
    + intros r Hr.
      apply elem_of_cons in Hr as [->|Hr];
        [|apply elem_of_cons in Hr as [->|Hr]; [|by apply elem_of_nil in Hr]];
        vm_compute; reflexivity.
Defined.

Lemma keep_valid_filter (data out : table) :
  keep_valid data = Returns out →
  out = List.filter (λ r, passes (email r)) data.
Proof.
  revert out. induction data as [|r data IH]; intros out H; simpl in H.
  - by inversion H.
  - apply bind_inv in H as (b & Hb & H).
    apply bind_inv in H as (out' & Hout' & H).
    inversion H; subst. simpl.
    rewrite <- (valid_email_passes _ _ Hb), <- (IH _ Hout'). reflexivity.
Qed.

(** X8. When [remove_rows_without_mail] returns, the returned table is the
    original with the rows removed whose email fails this test: the first
    '@' is also the last one and is not at position 0, the first '.' is not
    at position 0, and the character after the '@' is not '.'. The kept
    rows are unchanged and in their original order. *)
Theorem remove_rows_without_mail_filter (data out : table) :
  remove_rows_without_mail data = Returns out →
  out = List.filter (λ r, passes (email r)) data
  ∧ out `sublist_of` data.
Proof.
  rewrite remove_rows_without_mail_unfold. intros H.
  apply keep_valid_filter in H as ->. split; [reflexivity|].
  clear. induction data as [|r data IH]; [constructor|].
  simpl. destruct (passes (email r)); by constructor.
Qed.

Lemma remove_rows_without_mail_filter_witness :
  [subject "a.b@c.com" (grade 30) (grade 2) (grade 4) NaN (grade 6) (grade 8)]
  = List.filter (λ r, passes (email r)) sample_table
  ∧ [subject "a.b@c.com" (grade 30) (grade 2) (grade 4) NaN (grade 6) (grade 8)]
      `sublist_of` sample_table.
Proof.
  apply (remove_rows_without_mail_filter sample_table).
  vm_compute. reflexivity.
Defined.

Lemma str_rfind_none c e : str_rfind c e < 0 → count_char c e = 0%nat.
Proof.
  induction e as [|a e IH]; [done|].
  rewrite count_char_cons, Ascii.eqb_sym. simpl.
  destruct (Z.leb_spec 0 (str_rfind c e)); [lia|].
  destruct (Ascii.eqb a c); simpl; [lia|]. intros _. apply IH. lia.
Qed.

Lemma str_find_rfind_once c e :
  0 ≤ str_find c e → str_rfind c e = str_find c e → count_char c e = 1%nat.
Proof.
  induction e as [|a e IH]; [simpl; lia|].
  rewrite count_char_cons, Ascii.eqb_sym. simpl.
  destruct (Ascii.eqb a c) eqn:Ha; simpl.
  - intros _. destruct (Z.leb_spec 0 (str_rfind c e)); [lia|].
    intros _. by rewrite str_rfind_none.
  - destruct (Z.ltb_spec (str_find c e) 0); [lia|]. intros _.
    destruct (Z.leb_spec 0 (str_rfind c e)); [|lia].
    intros Heq. apply IH; lia.
Qed.

(** X9. Every row that [remove_rows_without_mail] keeps has an email of at
    least three characters with exactly one '@' and at least one '.', of
    which neither the '@' nor the first '.' is the first character, and
    with a character other than '.' right after the '@'. *)
Theorem remove_rows_without_mail_kept (data out : table) (r : row) :
  remove_rows_without_mail data = Returns out → r ∈ out →
  3 ≤ str_len (email r)
  ∧ count_char chr_at (email r) = 1%nat
  ∧ (0 < count_char chr_dot (email r))%nat
  ∧ 0 < str_find chr_at (email r)
  ∧ 0 < str_find chr_dot (email r)
  ∧ ∃ a, char_after_at (email r) = Some a ∧ a ≠ chr_dot.
Proof.
  rewrite remove_rows_without_mail_unfold. intros H Hin.
  apply keep_valid_all_valid in H.
  rewrite Forall_forall in H. specialize (H r Hin).
  assert (Hlt : str_find chr_at (email r) + 1 < str_len (email r))
    by (apply valid_email_returns; eauto).
  destruct (valid_email_rule (email r)) as [_ Hret].
  destruct (Hret Hlt) as (a & Ha & Hv). rewrite Hv in H.
  inversion H as [Hb]. clear H.
  apply andb_true_iff in Hb as [Hb Hnext].
  apply andb_true_iff in Hb as [Hb Hdot].
  apply andb_true_iff in Hb as [Hsame Hat].
  apply Z.eqb_eq in Hsame. apply Z.ltb_lt in Hat, Hdot.
  split; [lia|]. split; [apply str_find_rfind_once; lia|].
  split.
  { destruct (count_char chr_dot (email r)) eqn:Hc; [|lia].
    apply count_char_none in Hc as [Hc _]. lia. }
  split; [done|]. split; [done|].
  exists a. split; [exact Ha|].
  intros ->. by rewrite Ascii.eqb_refl in Hnext.
Qed.

Lemma remove_rows_without_mail_kept_witness :
  3 ≤ str_len "a.b@c.com"
  ∧ count_char chr_at "a.b@c.com" = 1%nat
  ∧ (0 < count_char chr_dot "a.b@c.com")%nat
  ∧ 0 < str_find chr_at "a.b@c.com"
  ∧ 0 < str_find chr_dot "a.b@c.com"
  ∧ ∃ a, char_after_at "a.b@c.com" = Some a ∧ a ≠ chr_dot.
Proof.
  apply (remove_rows_without_mail_kept sample_table
           [subject "a.b@c.com" (grade 30)
              (grade 2) (grade 4) NaN (grade 6) (grade 8)]
           (subject "a.b@c.com" (grade 30)
              (grade 2) (grade 4) NaN (grade 6) (grade 8))).
  - vm_compute. reflexivity.
  - apply elem_of_cons. left. reflexivity.
Defined.

(** ** score_subjects *)





(** The conversion on three tables of one row: a mean just below 256 that
    binary64 rounds to 256, a mean of +infinity, and a mean of
    -infinity. *)
Example score_subjects_examples :
  score_subjects
    [subject "a.b@c.com" (grade 30)
       (Some (256 - (1 # 2 ^ 45))%Q) (grade 256) (grade 256) (grade 256)
       (grade 256)] 1
  = Raises TypeError
  ∧ score_subjects [overflowing_row] 1 = Raises OverflowError
  ∧ score_subjects
      [subject "a.b@c.com" (grade 30)
         (grade (- 2 ^ 1023)) (grade (- 2 ^ 1023)) NaN NaN NaN] 1
    = Raises OverflowError.
Proof. repeat split; vm_compute; reflexivity. Qed.

Lemma count_nan_le (r : row) : (count_nan r ≤ 5)%nat.
Proof.
  unfold count_nan, grades, count_true.
  destruct (q1 r), (q2 r), (q3 r), (q4 r), (q5 r); simpl; lia.
Qed.

(** X11. Whenever [score_subjects] returns, the score of a row is NA
    exactly when the row has more missing grades than the tolerance or no
    present grade at all. So with a negative tolerance every score is NA,
    and with a tolerance of 5 or more only the rows without any grade have
    the score NA. *)
Theorem score_subjects_NA_iff (data : table) (m : Z) scored
    (i : nat) (r : row) (score : UInt8) :
  score_subjects data m = Returns scored →
  scored !! i = Some (r, score) →
  (score = None ↔ m < Z.of_nat (count_nan r) ∨ count_nan r = 5%nat)
  ∧ (m < 0 → score = None)
  ∧ (5 ≤ m → (score = None ↔ count_nan r = 5%nat)).
Proof.
  intros H Hi.
  pose proof (score_subjects_returns_fit data m scored H) as Hfit.
  rewrite (score_subjects_fit data m Hfit) in H.
  inversion H; subst. clear H.
  apply list_lookup_fmap_Some in Hi as (r' & Heq & Hr').
  assert (r = r' ∧ score = score_of m r') as [<- ->] by (by inversion Heq).
  clear Heq. apply list_elem_of_lookup_2, Hfit in Hr'.
  assert (Hiff : score_of m r = None
                 ↔ m < Z.of_nat (count_nan r) ∨ count_nan r = 5%nat).
  { unfold score_of.
    destruct (Z.ltb_spec m (Z.of_nat (count_nan r))) as [Hlt|Hge].
    - split; [by left | done].
    - rewrite <- row_mean_None.
      destruct (row_mean r) as [[mu|negative]|]; simpl; split; try done.
      + intros [?|?]; [lia | done].
      + by right. }
  pose proof (count_nan_le r). split; [exact Hiff|]. split.
  - intros Hneg. apply Hiff. left. lia.
  - intros Hbig. rewrite Hiff. split; [intros [?|?]; [lia | done] | by right].
Qed.

Lemma score_subjects_NA_iff_witness :
  (Some 5 = None
   ↔ 7 < Z.of_nat (count_nan (subject "a.b@c.com" (grade 30)
                                (grade 2) (grade 4) NaN (grade 6) (grade 8)))
     ∨ count_nan (subject "a.b@c.com" (grade 30)
                    (grade 2) (grade 4) NaN (grade 6) (grade 8)) = 5%nat)
  ∧ (7 < 0 → Some 5 = None)
  ∧ (5 ≤ 7
     → (Some 5 = None
        ↔ count_nan (subject "a.b@c.com" (grade 30)
                       (grade 2) (grade 4) NaN (grade 6) (grade 8)) = 5%nat)).
Proof.
  apply (score_subjects_NA_iff one_row 7
           [(subject "a.b@c.com" (grade 30)
               (grade 2) (grade 4) NaN (grade 6) (grade 8), Some 5)] 0).
  - vm_compute. reflexivity.
  - reflexivity.
Defined.

(** X12. Raising the tolerance never changes a score that is a number: when
    [score_subjects] returns with some tolerance, it also returns with
    every larger one, and each row that had a numeric score has the same
    score. *)
Theorem score_subjects_tolerance_monotone (data : table) (m m' : Z) scored :
  m ≤ m' →
  score_subjects data m = Returns scored →
  ∃ scored',
    score_subjects data m' = Returns scored'
    ∧ ∀ i r z, scored !! i = Some (r, Some z) →
               scored' !! i = Some (r, Some z).
Proof.
  intros Hle H.
  pose proof (score_subjects_returns_fit data m scored H) as Hfit.
  rewrite (score_subjects_fit data m Hfit) in H. inversion H; subst. clear H.
  exists ((λ r, (r, score_of m' r)) <$> data).
  split; [by apply score_subjects_fit|].
  intros i r z Hi. rewrite list_lookup_fmap in Hi |- *.
  destruct (data !! i) as [r'|]; [|discriminate]. simpl in Hi |- *.
  assert (r' = r ∧ score_of m r' = Some z) as [-> Hz] by (by inversion Hi).
  do 2 f_equal. unfold score_of in Hz |- *.
  destruct (Z.ltb_spec m (Z.of_nat (count_nan r))); [discriminate|].
  destruct (Z.ltb_spec m' (Z.of_nat (count_nan r))); [lia | done].
Qed.

Lemma score_subjects_tolerance_monotone_witness :
  ∃ scored',
    score_subjects one_row 3 = Returns scored'
    ∧ ∀ i r z,
        [(subject "a.b@c.com" (grade 30)
            (grade 2) (grade 4) NaN (grade 6) (grade 8), Some 5)] !! i
        = Some (r, Some z) →
        scored' !! i = Some (r, Some z).
Proof.
  apply (score_subjects_tolerance_monotone one_row 1 3).
  - lia.
  - vm_compute. reflexivity.
Defined.

(** ** Whole grades *)

Lemma pow2_nonneg k : 0 ≤ k → pow2 k = 2 ^ k.
Proof. intros. unfold pow2. by rewrite Z.max_l. Qed.

Lemma pow2_nonpos k : k ≤ 0 → pow2 k = 1.
Proof. intros. unfold pow2. by rewrite Z.max_r. Qed.

Lemma rint_bounds N D : 0 < D → N / D ≤ rint N D ≤ N / D + 1.
Proof.
  intros HD. unfold rint.
  destruct (2 * (N mod D) ?= D); [destruct (Z.even (N / D))|..]; lia.
Qed.

Lemma rint_exact N D : 0 < D → N mod D = 0 → rint N D = N / D.
Proof.
  intros HD Hr. unfold rint. rewrite Hr.
  by destruct (Z.compare_spec (2 * 0) D); try lia.
Qed.

Lemma Qlog2_bounds n d :
  Z.log2 n - Z.log2 d - 1 ≤ Qlog2 n d ≤ Z.log2 n - Z.log2 d.
Proof. unfold Qlog2. case_match; lia. Qed.

Lemma Qred_whole z : Qred (z # 1) = z # 1.
Proof.
  unfold Qred.
  pose proof (Z.ggcd_gcd z 1) as Hg.
  pose proof (Z.ggcd_correct_divisors z 1) as Hd.
  destruct (Z.ggcd z 1) as [g [aa bb]]. simpl in *.
  rewrite Z.gcd_1_r in Hg. subst g. destruct Hd as [Ha Hb].
  assert (aa = z) as -> by lia. assert (bb = 1) as -> by lia.
  reflexivity.
Qed.

(** A whole number below 2^53 is a binary64 number. *)
Lemma round64_whole z : 0 ≤ z < 2 ^ 53 → round64 (z # 1) = Finite (z # 1).
Proof.
  intros [H0 H53]. unfold round64. cbn [Qnum Qden].
  destruct (Z.eqb_spec z 0) as [->|Hz]; [reflexivity|].
  rewrite Z.abs_eq by done.
  pose proof (Qlog2_bounds z 1) as He.
  change (Z.log2 1) with 0 in He.
  assert (Hlog : 0 ≤ Z.log2 z < 53).
  { split; [apply Z.log2_nonneg|]. apply Z.log2_lt_pow2; lia. }
  set (e := Qlog2 z 1) in *.
  rewrite (Z.max_l e) by lia.
  rewrite (pow2_nonpos (e - 52)) by lia.
  rewrite (pow2_nonneg (- (e - 52))) by lia.
  set (P := 2 ^ (- (e - 52))).
  assert (HP : 0 < P) by (apply Z.pow_pos_nonneg; lia).
  assert (HP' : P ≤ 2 ^ 53) by (apply Z.pow_le_mono_r; lia).
  rewrite rint_exact by (rewrite ?Z.mod_1_r; lia).
  rewrite !Z.mul_1_r, Z.div_1_r.
  assert (Hm : z * P < 2 ^ 1024).
  { apply Z.lt_le_trans with (2 ^ 53 * 2 ^ 53); [nia|].
    rewrite <- Z.pow_add_r by lia. apply Z.pow_le_mono_r; lia. }
  destruct (Z.leb_spec (2 ^ 1024) (z * P)); [lia|].
  f_equal. rewrite <- (Qred_whole z). apply Qred_complete.
  unfold Qeq. cbn [Qnum Qden]. rewrite Z2Pos.id by done.
  assert (Z.sgn z = 1) as -> by lia. lia.
Qed.

(** The binary64 quotient of a whole number below 2^43 by a count of 1..5
    has the floor of the quotient. *)
Lemma round64_floor (s : Z) (n : positive) :
  0 ≤ s < 2 ^ 43 → Zpos n ≤ 5 →
  ∃ y, round64 (s # n) = Finite y ∧ Qfloor y = s / Zpos n.
Proof.
  intros [H0 H43] Hn. unfold round64. cbn [Qnum Qden].
  destruct (Z.eqb_spec s 0) as [->|Hs]; [by exists 0%Q|].
  rewrite Z.abs_eq by done.
  pose proof (Qlog2_bounds s (Zpos n)) as He.
  assert (Hlog : 0 ≤ Z.log2 s < 43).
  { split; [apply Z.log2_nonneg|]. apply Z.log2_lt_pow2; lia. }
  assert (Hlogn : 0 ≤ Z.log2 (Zpos n) ≤ 2).
  { split; [apply Z.log2_nonneg|].
    change 2 with (Z.log2 5). by apply Z.log2_le_mono. }
  set (e := Qlog2 s (Zpos n)) in *.
  rewrite (Z.max_l e) by lia.
  rewrite (pow2_nonpos (e - 52)) by lia.
  rewrite (pow2_nonneg (- (e - 52))) by lia.
  set (P := 2 ^ (- (e - 52))).
  assert (HP : 2 ^ 10 ≤ P) by (apply Z.pow_le_mono_r; lia).
  assert (HP' : P ≤ 2 ^ 55) by (apply Z.pow_le_mono_r; lia).
  rewrite !Z.mul_1_r.
  set (k := s / Zpos n).
  pose proof (Z.div_mod s (Zpos n) ltac:(lia)) as Hdiv.
  pose proof (Z.mod_pos_bound s (Zpos n) ltac:(lia)) as Hmod.
  fold k in Hdiv.
  assert (Hk : 0 ≤ k) by (apply Z.div_pos; lia).
  assert (Hks : k ≤ s) by nia.
  pose proof (rint_bounds (s * P) (Zpos n) ltac:(lia)) as Hm.
  set (m := rint (s * P) (Zpos n)) in *.
  assert (Hlo : k * P ≤ m).
  { etrans; [|apply Hm]. apply Z.div_le_lower_bound; [lia|]. nia. }
  assert (Hhi : m < (k + 1) * P).
  { assert (s * P / Zpos n < (k + 1) * P - 1); [|lia].
    apply Z.div_lt_upper_bound; [lia|]. nia. }
  assert (Hm' : m < 2 ^ 1024).
  { apply Z.lt_le_trans with (2 ^ 43 * 2 ^ 55); [nia|].
    rewrite <- Z.pow_add_r by lia. apply Z.pow_le_mono_r; lia. }
  destruct (Z.leb_spec (2 ^ 1024) m); [lia|].
  eexists. split; [reflexivity|].
  rewrite (Qfloor_comp _ _ (Qred_correct _)).
  cbn [Qfloor]. rewrite Z2Pos.id by lia.
  assert (Z.sgn s = 1) as -> by lia. rewrite Z.mul_1_l.
  symmetry. apply Z.div_unique with (m - k * P); lia.
Qed.

Lemma whole_grade_inv bound c :
  whole_grade bound c = true →
  default 0%Q c = inject_Z (Qnum (default 0%Q c))
  ∧ (0 ≤ bound → 0 ≤ Qnum (default 0%Q c) ≤ bound).
Proof.
  destruct c as [[n d]|]; cbn [whole_grade default Qnum Qden];
    [|by split; [|lia]].
  intros H. apply andb_true_iff in H as [H Hhi].
  apply andb_true_iff in H as [Hd Hlo].
  apply Pos.eqb_eq in Hd. apply Z.leb_le in Hlo, Hhi. subst d.
  split; [reflexivity|]. simpl. lia.
Qed.

Lemma whole_sum_bounds bound xs :
  0 ≤ bound → Forall (λ c, whole_grade bound c = true) xs →
  0 ≤ whole_sum xs ≤ bound * Z.of_nat (length xs).
Proof.
  intros Hb. induction 1 as [|c xs Hc _ IH]; simpl; [lia|].
  apply whole_grade_inv in Hc as [_ Hc]. specialize (Hc Hb). lia.
Qed.

Lemma add64_whole a g :
  0 ≤ a → 0 ≤ g → a + g < 2 ^ 53 →
  add64 (Finite (inject_Z a)) (inject_Z g) = Finite (inject_Z (a + g)).
Proof.
  intros Ha Hg Hsum. unfold add64, Qplus, inject_Z. cbn [Qnum Qden].
  change (1 * 1)%positive with 1%positive. rewrite !Z.mul_1_r.
  apply round64_whole. lia.
Qed.

Lemma foldl_add64_whole bound xs a :
  0 ≤ bound → Forall (λ c, whole_grade bound c = true) xs →
  0 ≤ a → a + bound * Z.of_nat (length xs) < 2 ^ 53 →
  foldl add64 (Finite (inject_Z a)) (default 0%Q <$> xs)
  = Finite (inject_Z (a + whole_sum xs)).
Proof.
  intros Hb Hxs. revert a.
  induction Hxs as [|c xs Hc Hxs IH]; intros a Ha Hsum.
  - simpl. by rewrite Z.add_0_r.
  - rewrite fmap_cons. cbn [foldl].
    pose proof (whole_sum_bounds bound xs Hb Hxs) as Hrest.
    apply whole_grade_inv in Hc as [Hc Hg]. specialize (Hg Hb).
    rewrite length_cons, Nat2Z.inj_succ in Hsum.
    rewrite Hc, add64_whole by lia.
    rewrite IH by lia. do 2 f_equal. unfold whole_sum. cbn [foldr]. lia.
Qed.

Lemma foldr_Qplus_whole bound xs :
  Forall (λ c, whole_grade bound c = true) xs →
  (foldr Qplus 0 (omap id xs) == inject_Z (whole_sum xs))%Q.
Proof.
  induction 1 as [|c xs Hc _ IH]; [reflexivity|].
  apply whole_grade_inv in Hc as [Hc _].
  destruct c as [q|]; simpl in *.
  - rewrite IH, inject_Z_plus, <- Hc. reflexivity.
  - rewrite IH. reflexivity.
Qed.

Lemma length_omap_id {A} (xs : list (option A)) :
  (length (omap id xs) ≤ length xs)%nat.
Proof. induction xs as [|[x|] xs IH]; cbn in *; lia. Qed.

(** On whole grades of 0..2^40 the binary64 mean of a row has the floor of
    the mean of the present grades. *)
Lemma nanmean_whole (bound : Z) (xs : list cell) :
  0 ≤ bound ≤ 2 ^ 40 → length xs = 5%nat →
  Forall (λ c, whole_grade bound c = true) xs →
  match spec_mean xs with
  | None => nanmean xs = None
  | Some mean =>
      ∃ mu, nanmean xs = Some (Finite mu) ∧ Qfloor mu = Qfloor mean
            ∧ 0 ≤ Qfloor mean ≤ bound
  end.
Proof.
  intros [Hb Hb'] Hlen Hxs. unfold spec_mean, nanmean.
  pose proof (foldr_Qplus_whole bound xs Hxs) as Hsum.
  pose proof (length_omap_id xs) as Hcount.
  pose proof (whole_sum_bounds bound xs Hb Hxs) as Hbounds.
  assert (Hpresent : 0 ≤ whole_sum xs
                     ≤ bound * Z.of_nat (length (omap id xs))).
  { clear Hsum Hcount Hbounds Hlen.
    induction Hxs as [|c xs Hc _ IH]; [simpl; lia|].
    apply whole_grade_inv in Hc as [_ Hc]. specialize (Hc Hb).
    unfold whole_sum in *. cbn [foldr].
    destruct c as [q|].
    - change (omap id (Some q :: xs)) with (q :: omap id xs).
      rewrite length_cons, Nat2Z.inj_succ. lia.
    - change (omap id (None :: xs)) with (omap id xs).
      change (Qnum (default 0%Q None)) with 0. lia. }
  change (Finite 0%Q) with (Finite (inject_Z 0)).
  assert (Hsmall : 2 ^ 40 * 5 < 2 ^ 43) by reflexivity.
  assert (Hsmall' : 2 ^ 43 < 2 ^ 53) by reflexivity.
  rewrite Hlen in Hbounds. change (Z.of_nat 5) with 5 in Hbounds.
  rewrite (foldl_add64_whole bound xs 0);
    [|done..|rewrite Hlen; change (Z.of_nat 5) with 5; lia].
  rewrite Z.add_0_l.
  destruct (omap id xs) as [|v vs]; [reflexivity|].
  set (count := length (v :: vs)) in *.
  assert (Hpos : ∃ p, Z.of_nat count = Zpos p) by (by eexists).
  destruct Hpos as [p Hp].
  assert (Hp5 : Zpos p ≤ 5) by lia.
  assert (Hmean : (foldr Qplus 0 (v :: vs) / inject_Z (Z.of_nat count)
                   == whole_sum xs # p)%Q).
  { rewrite Hsum, Hp. unfold Qdiv, Qinv, Qmult, inject_Z, Qeq.
    cbn [Qnum Qden]. lia. }
  destruct (round64_floor (whole_sum xs) p) as (y & Hy & Hfloor);
    [lia | done |].
  exists y. split; [|split].
  - unfold div64. rewrite Hp. unfold Qdiv, Qinv, Qmult, inject_Z.
    cbn [Qnum Qden]. change (1 * p)%positive with p.
    by rewrite Z.mul_1_r, Hy.
  - rewrite Hfloor, (Qfloor_comp _ _ (Qred_correct _)).
    by rewrite (Qfloor_comp _ _ Hmean).
  - rewrite (Qfloor_comp _ _ (Qred_correct _)), (Qfloor_comp _ _ Hmean).
    cbn [Qfloor]. split; [apply Z.div_pos; lia|].
    apply Z.div_le_upper_bound; lia.
Qed.

(** X18. On a table whose present grades are whole numbers of 0..255,
    [score_subjects] returns the rows of the table, each with its score:
    NA when the row has more missing grades than the tolerance or no grade
    at all, and otherwise the floor of the mean of its present grades. On
    such grades the rounding of binary64 changes no floor. *)
Theorem score_subjects_whole_grades (data : table) (m : Z) :
  (∀ r, r ∈ data → forallb (whole_grade 255) (grades r) = true) →
  ∃ scored,
    score_subjects data m = Returns scored
    ∧ scored.*1 = data
    ∧ ∀ i r (score : UInt8), scored !! i = Some (r, score) →
        score = if m <? Z.of_nat (count_nan r) then None
                else Qfloor <$> spec_mean (grades r).
Proof.
  intros Hwhole.
  assert (Hmean : ∀ r, r ∈ data →
            fits_UInt8 (row_mean r)
            ∧ floor_UInt8 (row_mean r) = Qfloor <$> spec_mean (grades r)).
  { intros r Hr. unfold row_mean.
    assert (Hgrades : Forall (λ c, whole_grade 255 c = true) (grades r)).
    { apply Forall_forall. intros c Hc.
      specialize (Hwhole r Hr). rewrite forallb_forall in Hwhole.
      by apply Hwhole, list_elem_of_In. }
    pose proof (nanmean_whole 255 (grades r) ltac:(lia) eq_refl Hgrades)
      as Hr'.
    destruct (spec_mean (grades r)) as [mean|].
    - destruct Hr' as (mu & -> & Hfloor & Hrange). simpl.
      rewrite Hfloor. by split.
    - by rewrite Hr'. }
  exists ((λ r, (r, score_of m r)) <$> data). split; [|split].
  - apply score_subjects_fit. intros r Hr. by apply Hmean.
  - rewrite <- list_fmap_compose. apply list_fmap_id.
  - intros i r score Hi.
    apply list_lookup_fmap_Some in Hi as (r' & Heq & Hr').
    assert (r = r' ∧ score = score_of m r') as [<- ->] by (by inversion Heq).
    apply list_elem_of_lookup_2, Hmean in Hr' as [_ Hr'].
    unfold score_of. by rewrite Hr'.
Qed.

Lemma score_subjects_whole_grades_witness :
  ∃ scored,
    score_subjects
      [subject "a.b@c.com" (grade 30) (grade 3) (grade 3) (grade 3) (grade 3) NaN;
       subject "d.e@f.com" (grade 40) (grade 3) (grade 4) (grade 4) NaN NaN] 1
    = Returns scored
    ∧ scored.*1 =
      [subject "a.b@c.com" (grade 30) (grade 3) (grade 3) (grade 3) (grade 3) NaN;
       subject "d.e@f.com" (grade 40) (grade 3) (grade 4) (grade 4) NaN NaN]
    ∧ ∀ i r (score : UInt8), scored !! i = Some (r, score) →
        score = if 1 <? Z.of_nat (count_nan r) then None
                else Qfloor <$> spec_mean (grades r).
Proof.
  apply (score_subjects_whole_grades
           [subject "a.b@c.com" (grade 30) (grade 3) (grade 3) (grade 3) (grade 3) NaN;
            subject "d.e@f.com" (grade 40) (grade 3) (grade 4) (grade 4) NaN NaN] 1).
  intros r Hr.
  apply elem_of_cons in Hr as [->|Hr];
    [|apply elem_of_cons in Hr as [->|Hr]; [|by apply elem_of_nil in Hr]];
    reflexivity.
Defined.

(** ** show_age_distrib *)

Lemma np_histogram_cons (c : cell) (a : list cell) (edges : list Q) :
  np_histogram (c :: a) edges
  = zip_with Nat.add (np_histogram [c] edges) (np_histogram a edges).
Proof.
  induction edges as [|lo [|hi rest] IH]; [reflexivity..|].
  change (np_histogram (c :: a) (lo :: hi :: rest))
    with (count_true (in_bin (bool_decide (rest = [])) lo hi) (c :: a)
            :: np_histogram (c :: a) (hi :: rest)).
  change (np_histogram [c] (lo :: hi :: rest))
    with (count_true (in_bin (bool_decide (rest = [])) lo hi) [c]
            :: np_histogram [c] (hi :: rest)).
  change (np_histogram a (lo :: hi :: rest))
    with (count_true (in_bin (bool_decide (rest = [])) lo hi) a
            :: np_histogram a (hi :: rest)).
  rewrite IH. unfold count_true. csimpl. f_equal. lia.
Qed.

Ltac last_bin :=
  repeat match goal with
    | |- context [bool_decide ?P] =>
        let b := eval vm_compute in (bool_decide P) in
        change (bool_decide P) with b
    end;
  cbn iota.

Ltac decide_edge :=
  repeat match goal with
    | |- context [Qle_bool ?a ?b] =>
        first
          [ assert (Qle_bool a b = true) as ->
              by (apply Qle_bool_iff; lra)
          | assert (Qle_bool a b = false) as ->
              by (apply not_true_iff_false; rewrite Qle_bool_iff; lra) ]
    end.

Lemma np_histogram_single_out (c : cell) :
  in_bin true 0 100 c = false →
  np_histogram [c] [0; 10; 20; 30; 40; 50; 60; 70; 80; 90; 100]%Q
  = replicate 10 0%nat.
Proof.
  destruct c as [x|]; [|reflexivity]. unfold in_bin. intros Hout.
  cbn [np_histogram]. unfold count_true, in_bin. cbn [fmap list_fmap].
  last_bin.
  destruct (Qle_bool 0 x) eqn:H0.
  - destruct (Qle_bool x 100) eqn:H100; [discriminate|].
    apply Qle_bool_iff in H0.
    apply not_true_iff_false in H100. rewrite Qle_bool_iff in H100.
    decide_edge. reflexivity.
  - apply not_true_iff_false in H0. rewrite Qle_bool_iff in H0.
    decide_edge. reflexivity.
Qed.

Lemma np_histogram_single_in (x : Q) :
  (0 <= x)%Q → (x <= 100)%Q →
  np_histogram [Some x] [0; 10; 20; 30; 40; 50; 60; 70; 80; 90; 100]%Q
  = <[bucket_of x := 1%nat]> (replicate 10 0%nat).
Proof.
  intros H0 H100. unfold bucket_of.
  unfold Qdiv. change (/ 10)%Q with (1 # 10)%Q.
  pose proof (Qfloor_le (x * (1 # 10))) as Hlo.
  pose proof (Qlt_floor (x * (1 # 10))) as Hhi.
  assert (Hz0 : 0 ≤ Qfloor (x * (1 # 10))).
  { change 0 with (Qfloor 0). apply Qfloor_resp_le. lra. }
  assert (Hz10 : Qfloor (x * (1 # 10)) ≤ 10).
  { change 10 with (Qfloor 10). apply Qfloor_resp_le. lra. }
  rewrite inject_Z_plus in Hhi.
  remember (Qfloor (x * (1 # 10))) as z eqn:Hz. clear Hz.
  cbn [np_histogram]. unfold count_true, in_bin. cbn [fmap list_fmap].
  last_bin.
  assert (Hcases : z = 0 ∨ z = 1 ∨ z = 2 ∨ z = 3 ∨ z = 4 ∨ z = 5 ∨ z = 6
                   ∨ z = 7 ∨ z = 8 ∨ z = 9 ∨ z = 10) by lia.
  destruct Hcases as [->|[->|[->|[->|[->|[->|[->|[->|[->|[->| ->]]]]]]]]]];
    unfold inject_Z in Hlo, Hhi; decide_edge; reflexivity.
Qed.

Lemma bucket_of_lt (x : Q) : (bucket_of x < 10)%nat.
Proof. unfold bucket_of. lia. Qed.

Lemma add_unit_alter (k : nat) (l : list nat) :
  length l = 10%nat → (k < 10)%nat →
  zip_with Nat.add (<[k := 1%nat]> (replicate 10 0%nat)) l = alter S k l.
Proof.
  intros Hl Hk.
  do 10 (destruct l as [|? l]; [discriminate|]).
  destruct l; [|discriminate].
  do 10 (destruct k as [|k]; [reflexivity|]). lia.
Qed.

Lemma add_zeros (l : list nat) :
  length l = 10%nat → zip_with Nat.add (replicate 10 0%nat) l = l.
Proof.
  intros Hl.
  do 10 (destruct l as [|? l]; [discriminate|]).
  destruct l; [reflexivity | discriminate].
Qed.

(** X13. A further row changes the histogram in one bucket at most: a row
    whose age is missing or outside [0, 100] leaves every count as it is,
    and a row with an age of [0, 100] adds one to the bucket of the tens
    of the age (to the last bucket for the age 100) and leaves the other
    counts as they are. *)
Theorem show_age_distrib_one_more_row (data : table) (r : row) :
  (age_in_range r = false →
   (show_age_distrib (r :: data)).1 = (show_age_distrib data).1)
  ∧ (∀ x, age r = Some x → (0 <= x)%Q → (x <= 100)%Q →
       (show_age_distrib (r :: data)).1
       = alter S (bucket_of x) (show_age_distrib data).1).
Proof.
  unfold show_age_distrib. cbn [fst]. rewrite bins_eq, fmap_cons.
  rewrite np_histogram_cons.
  assert (Hlen : length (np_histogram (age <$> data)
                   [0; 10; 20; 30; 40; 50; 60; 70; 80; 90; 100]%Q) = 10%nat)
    by (by rewrite np_histogram_length).
  split.
  - intros Hout. rewrite np_histogram_single_out by exact Hout.
    by apply add_zeros.
  - intros x Hx H0 H100. rewrite Hx, np_histogram_single_in by done.
    apply add_unit_alter; [done | apply bucket_of_lt].
Qed.

Lemma show_age_distrib_one_more_row_witness :
  (show_age_distrib
     (subject "g.h@i.com" (grade 120) NaN NaN NaN NaN NaN :: sample_table)).1
  = (show_age_distrib sample_table).1
  ∧ (show_age_distrib
       (subject "g.h@i.com" (grade 100) NaN NaN NaN NaN NaN :: sample_table)).1
    = alter S 9%nat (show_age_distrib sample_table).1.
Proof.
  split.
  - apply (show_age_distrib_one_more_row sample_table
             (subject "g.h@i.com" (grade 120) NaN NaN NaN NaN NaN)).
    vm_compute. reflexivity.
  - apply (proj2 (show_age_distrib_one_more_row sample_table
                    (subject "g.h@i.com" (grade 100) NaN NaN NaN NaN NaN))
             (inject_Z 100)).
    + reflexivity.
    + vm_compute. discriminate.
    + vm_compute. discriminate.
Defined.

Lemma count_true_perm {A} (f : A → bool) (a a' : list A) :
  a ≡ₚ a' → count_true f a = count_true f a'.
Proof.
  unfold count_true. induction 1 as [|x a a' _ IH|x y a|a a' a'' _ IH1 _ IH2];
    csimpl; lia.
Qed.

Lemma np_histogram_perm (a a' : list cell) (edges : list Q) :
  a ≡ₚ a' → np_histogram a edges = np_histogram a' edges.
Proof.
  intros Hperm. induction edges as [|lo [|hi rest] IH]; [reflexivity..|].
  change (np_histogram a (lo :: hi :: rest))
    with (count_true (in_bin (bool_decide (rest = [])) lo hi) a
            :: np_histogram a (hi :: rest)).
  change (np_histogram a' (lo :: hi :: rest))
    with (count_true (in_bin (bool_decide (rest = [])) lo hi) a'
            :: np_histogram a' (hi :: rest)).
  by rewrite IH, (count_true_perm _ a a' Hperm).
Qed.

(** X14. The histogram does not depend on the order of the rows: two tables
    with the same rows in another order have the same bucket counts; and
    the returned bin edges are 0, 10, ..., 100 whatever the table. *)
Theorem show_age_distrib_row_order (data data' : table) :
  data ≡ₚ data' →
  (show_age_distrib data).1 = (show_age_distrib data').1
  ∧ (show_age_distrib data).2
    = [0; 10; 20; 30; 40; 50; 60; 70; 80; 90; 100]%Q.
Proof.
  intros Hperm. unfold show_age_distrib. cbn [fst snd]. split.
  - apply np_histogram_perm. by apply fmap_Permutation.
  - apply bins_eq.
Qed.

Lemma show_age_distrib_row_order_witness :
  (show_age_distrib sample_table).1
  = (show_age_distrib
       [subject "ab@.com" NaN (grade 3) (grade 3) (grade 3) (grade 3) NaN;
        subject "a.b@c.com" (grade 30)
          (grade 2) (grade 4) NaN (grade 6) (grade 8)]).1
  ∧ (show_age_distrib sample_table).2
    = [0; 10; 20; 30; 40; 50; 60; 70; 80; 90; 100]%Q.
Proof.
  apply (show_age_distrib_row_order sample_table).
  apply perm_swap.
Defined.

(** ** The object and the heap *)




(** X16. A call that raises leaves the heap exactly as it found it, and
    the exceptions of each operation are: KeyError of the missing column
    for [show_age_distrib]; KeyError of the missing column, AttributeError
    and IndexError for [remove_rows_without_mail]; ValueError for
    [fill_na_with_mean]; TypeError, OverflowError and ValueError for
    [score_subjects]. *)
Theorem raising_call_leaves_heap (this : QuestionnaireAnalysis.self)
    (c : QuestionnaireAnalysis.call) (h h' : heap) (df : DataFrame)
    (e : exn) :
  h !! QuestionnaireAnalysis.data this = Some (Frame df) →
  QuestionnaireAnalysis.invoke this c h = (Raises e, h') →
  h' = h
  ∧ match c with
    | QuestionnaireAnalysis.ShowAgeDistrib => e = KeyError "age"
    | QuestionnaireAnalysis.RemoveRowsWithoutMail =>
        e = KeyError "email" ∨ e = AttributeError ∨ e = IndexError
    | QuestionnaireAnalysis.FillNaWithMean => e = ValueError
    | QuestionnaireAnalysis.ScoreSubjects _ =>
        e = TypeError ∨ e = OverflowError ∨ e = ValueError
    end.
Proof.
  intros Hdata. destruct c as [| | |m];
    unfold QuestionnaireAnalysis.invoke; rewrite run_bind.
  - rewrite (show_age_distrib_run _ _ _ Hdata). unfold getitem.
    case_bool_decide as Hc; intros H; by inversion H.
  - rewrite (remove_rows_without_mail_run _ _ _ Hdata). unfold getitem.
    case_bool_decide as Hc; [|intros H; inversion H; auto].
    rewrite bind_Returns. unfold str_accessor.
    destruct (rows df) as [|r0 data]; [intros H; inversion H; auto|].
    destruct (remove_rows_without_mail (r0 :: data)) as [kept|e'] eqn:Hk;
      [discriminate|].
    intros H; inversion H; subst. split; [done|]. do 2 right.
    rewrite remove_rows_without_mail_unfold in Hk.
    by eapply keep_valid_raises.
  - rewrite (fill_na_with_mean_run _ _ _ Hdata).
    destruct (fill_na_with_mean (rows df)) as [filled|e'] eqn:Hf;
      [discriminate|].
    intros H; inversion H; subst. split; [done|].
    rewrite fill_na_with_mean_spec in Hf. case_bool_decide as Hl; by inversion Hf.
  - rewrite (score_subjects_run _ _ _ _ Hdata).
    destruct (score_subjects (rows df) m) as [scored|e'] eqn:Hs;
      [discriminate|].
    intros H; inversion H; subst. split; [done|].
    by eapply score_subjects_raises.
Qed.

Lemma raising_call_leaves_heap_witness :
  sample_heap = sample_heap ∧ ValueError = ValueError.
Proof.
  apply (raising_call_leaves_heap sample_self
           QuestionnaireAnalysis.FillNaWithMean
           sample_heap sample_heap sample_frame ValueError).
  - reflexivity.
  - reflexivity.
Defined.

(** ** The operations together *)

(** X17. With a tolerance of 0 the rows that [score_subjects] scores NA are
    the rows that [fill_na_with_mean] reports as filled: on a table on
    which both return, a position is in the list of row indices exactly
    when the score at that position is NA. *)
Theorem filled_rows_are_the_unscored_rows
    (data : table) (df : list frow) (arr : list nat) scored (i : nat) :
  fill_na_with_mean data = Returns (df, arr) →
  score_subjects data 0 = Returns scored →
  i ∈ arr ↔ ∃ r, scored !! i = Some (r, None).
Proof.
  intros Hfill Hscore.
  rewrite fill_na_with_mean_spec in Hfill.
  case_bool_decide as Hlen; [|discriminate]. inversion Hfill; subst.
  pose proof (score_subjects_returns_fit data 0 scored Hscore) as Hfit.
  rewrite (score_subjects_fit data 0 Hfit) in Hscore.
  inversion Hscore; subst. clear Hfill Hscore.
  rewrite rows_with_nan_elem, Nat.sub_0_r.
  assert (Hna : ∀ r, r ∈ data →
                     score_of 0 r = None ↔ (0 < count_nan r)%nat).
  { intros r Hr. apply Hfit in Hr. unfold score_of.
    destruct (Z.ltb_spec 0 (Z.of_nat (count_nan r))) as [Hlt|Hge].
    - split; [lia | done].
    - destruct (row_mean r) as [[mu|negative]|] eqn:Hmu; simpl.
      + split; [done | lia].
      + done.
      + apply row_mean_None in Hmu. lia. }
  split.
  - intros [_ (r & Hr & Hpos)]. exists r.
    rewrite list_lookup_fmap, Hr. simpl. do 2 f_equal.
    apply Hna; [by eapply list_elem_of_lookup_2 | done].
  - intros [r Hr]. split; [lia|].
    rewrite list_lookup_fmap in Hr.
    destruct (data !! i) as [r'|] eqn:Hi; [|discriminate]. simpl in Hr.
    assert (r' = r ∧ score_of 0 r' = None) as [-> Hnone] by (by inversion Hr).
    exists r. split; [done|].
    apply Hna; [by eapply list_elem_of_lookup_2 | done].
Qed.

Lemma filled_rows_are_the_unscored_rows_witness :
  0%nat ∈ [0%nat]
  ↔ ∃ r, [(subject "a.b@c.com" (grade 30)
             (grade 2) (grade 4) NaN (grade 6) (grade 8), @None Z)] !! 0%nat
         = Some (r, None).
Proof.
  apply (filled_rows_are_the_unscored_rows one_row one_row_filled).
  - vm_compute. reflexivity.
  - vm_compute. reflexivity.
Defined.
